(** * component-contribution: microspecies transform engine and compound cache

    Shallow embedding of [python/compound.py] and [python/compound_cacher.py].

    Modelling choices:
    - Python floats are modelled as Stdlib reals [R]; [np.log] is [ln],
      [np.exp] is [exp]; [logsumexp] is [ln (sum (exp x_i))], which is what
      scipy's max-shifted implementation computes in exact arithmetic.
    - The external collaborators (the gas constant [R] and [debye_huckel] of
      [thermodynamic_constants], the KEGG REST lookup with [mol2inchi],
      ChemAxon's [GetDissociationConstants], Open Babel's [smiles2inchi] and
      [GetAtomicNum], and [GetFormulaAndCharge] with the formula parsing of
      [get_atom_bag_and_charge_from_inchi]) are bundled in a record
      [Collaborators]; every definition is generic in it.
    - A raised ChemAxonError is [None] from [GetDissociationConstants].
    - A Python [dict] keyed by compound id is a [gmap string]; the external
      calls the cache performs are logged in its state as [Event]s. *)

From Stdlib Require Import Reals Psatz Sorting.Sorted Sorting.Permutation.
From stdpp Require Import base gmap list strings pretty.

Open Scope R_scope.

(** ** Collaborators *)

Record Collaborators := {
  (** [thermodynamic_constants.R] *)
  Rgas : R;
  (** [thermodynamic_constants.debye_huckel((I, T))] *)
  debye_huckel : R * R -> R;
  (** [Compound.get_inchi]: KEGG mol file converted by [mol2inchi];
      [None] when there is no structure *)
  get_inchi : Z -> option string;
  (** [chemaxon.GetDissociationConstants]: [None] when it raises
      [ChemAxonError]; otherwise the raw pKas and the SMILES of the major
      microspecies at pH 7 *)
  GetDissociationConstants : string -> option (list R * string);
  (** [Compound.smiles2inchi] *)
  smiles2inchi : string -> option string;
  (** [Compound.get_atom_bag_and_charge_from_inchi] *)
  get_atom_bag_and_charge_from_inchi : option string -> gmap string Z * Z;
  (** [Compound._obElements.GetAtomicNum] *)
  GetAtomicNum : string -> Z
}.

(** ** Compound *)

Record Compound := mkCompound {
  database : string;
  compound_id : string;
  inchi : option string;
  pKas : list R;
  majorMSpH7 : Z;
  nHs : list Z;
  zs : list Z
}.

(** Errors raised by the transform methods (both are Python [ValueError]s):
    the missing zero-charge microspecies of [transform_neutral], and the
    shape mismatch of [np.vstack] when [nHs]/[zs] do not have one entry per
    microspecies. *)
Inductive PyError :=
| NoZeroChargeSpecies (cid : string)
| ShapeMismatch.

Inductive result (A : Type) :=
| Ok (a : A)
| Err (e : PyError).
Arguments Ok {A} a.
Arguments Err {A} e.

Definition result_map {A B} (f : A -> B) (r : result A) : result B :=
  match r with Ok a => Ok (f a) | Err e => Err e end.

(** Python [sum(l)]: left to right from 0. *)
Definition py_sum (l : list R) : R := fold_left Rplus l 0.

(** Python slice [l[:k]]. *)
Definition py_slice_to {A} (k : Z) (l : list A) : list A :=
  if (0 <=? k)%Z then firstn (Z.to_nat k) l
  else firstn (length l - Z.to_nat (- k)) l.

(** Python [l.index(x)]: the first position of [x]. *)
Fixpoint py_index (x : Z) (l : list Z) : option nat :=
  match l with
  | [] => None
  | y :: r => if Z.eqb y x then Some 0%nat
              else option_map S (py_index x r)
  end.

(** [np.cumsum]. *)
Fixpoint cumsum_acc (acc : R) (l : list R) : list R :=
  match l with
  | [] => []
  | x :: r => (acc + x) :: cumsum_acc (acc + x) r
  end.
Definition cumsum (l : list R) : list R := cumsum_acc 0 l.

(** [scipy.misc.logsumexp]. *)
Definition logsumexp (l : list R) : R :=
  ln (fold_right Rplus 0 (map exp l)).

Section Transform.
Variable env : Collaborators.

(** [Compound._transform]; [np.vstack] of the three rows fails unless they
    have the same length. *)
Definition _transform (c : Compound) (pH I T : R) : result R :=
  match inchi c with
  | None => Ok 0
  | Some _ =>
    let dG0s := match pKas c with
                | [] => [0]
                | _ => map (fun s => - s * Rgas env * T * ln 10)
                           (cumsum (0 :: pKas c))
                end in
    let DH := debye_huckel env (I, T) in
    if (Nat.eqb (length dG0s) (length (nHs c))
        && Nat.eqb (length dG0s) (length (zs c)))%bool then
      let pseudoisomers := combine (combine dG0s (nHs c)) (zs c) in
      let dG0_prime_vector :=
        map (fun '((g, nH), z) =>
               g + IZR nH * (Rgas env * T * ln 10 * pH + DH) - IZR z ^ 2 * DH)
            pseudoisomers in
      Ok (- Rgas env * T
          * logsumexp (map (fun v => v / (- Rgas env * T)) dG0_prime_vector))
    else Err ShapeMismatch
  end.

(** [Compound.transform]. *)
Definition transform (c : Compound) (pH I T : R) : result R :=
  let ddG0 := py_sum (py_slice_to (majorMSpH7 c) (pKas c))
              * Rgas env * T * ln 10 in
  result_map (fun t => t + ddG0) (_transform c pH I T).

(** [Compound.transform_neutral]. *)
Definition transform_neutral (c : Compound) (pH I T : R) : result R :=
  match py_index 0 (zs c) with
  | None => Err (NoZeroChargeSpecies (compound_id c))
  | Some MS_ind =>
    let ddG0 := py_sum (firstn MS_ind (pKas c)) * Rgas env * T * ln 10 in
    result_map (fun t => t + ddG0) (_transform c pH I T)
  end.

(** The ladder-shape invariant of the data model: one hydrogen count and
    one charge per microspecies. *)
Definition ladder_shape (c : Compound) : Prop :=
  length (nHs c) = S (length (pKas c)) /\
  length (zs c) = S (length (pKas c)).

(** The spec's [baseOffset(k)]: the sum of the first [k] pKas times
    R * T * ln(10). *)
Definition baseOffset (c : Compound) (T : R) (k : nat) : R :=
  py_sum (firstn k (pKas c)) * Rgas env * T * ln 10.

(** The spec's reference description of [core(pH, I, T)]: cumulative
    energies [E], the per-species transformed energies [V], and the
    log-sum-exp reduction over species [0 .. len(pKas)]. *)
Definition E_ref (c : Compound) (T : R) (i : nat) : R :=
  - py_sum (firstn i (pKas c)) * Rgas env * T * ln 10.

Definition V_ref (c : Compound) (pH I T : R) (i : nat) : R :=
  let D := debye_huckel env (I, T) in
  E_ref c T i + IZR (nth i (nHs c) 0%Z) * (Rgas env * T * ln 10 * pH + D)
  - IZR (nth i (zs c) 0%Z) ^ 2 * D.

Definition core_ref (c : Compound) (pH I T : R) : R :=
  match inchi c with
  | None => 0
  | Some _ =>
    - Rgas env * T
    * logsumexp (map (fun i => V_ref c pH I T i / (- Rgas env * T))
                     (seq 0 (S (length (pKas c)))))
  end.

(** ** Ladder derivation *)

Definition MIN_PH : R := 0.
Definition MAX_PH : R := 14.

Definition Rltb (x y : R) : bool := if Rlt_dec x y then true else false.

(** Python [sorted(l, reverse=True)] on floats, as an insertion sort. *)
Fixpoint insert_desc (x : R) (l : list R) : list R :=
  match l with
  | [] => [x]
  | y :: r => if Rltb y x then x :: y :: r else y :: insert_desc x r
  end.
Definition sorted_desc (l : list R) : list R := fold_right insert_desc [] l.

(** The [moltype] argument of [get_species_pka]; any other value raises
    [ValueError], and no caller passes one. *)
Inductive MolType := MT_inchi | MT_smiles.

(** The result tuple [(pKas, majorMSpH7, nHs, zs)]. *)
Record Ladder := mkLadder {
  l_pKas : list R;
  l_majorMSpH7 : Z;
  l_nHs : list Z;
  l_zs : list Z
}.

(** The [try]/[except ChemAxonError] block of [get_species_pka]: the
    filtered and sorted pKas and the InChI of the major microspecies. *)
Definition species_pka_try (molstring : string) (moltype : MolType)
    : list R * option string :=
  match GetDissociationConstants env molstring with
  | Some (raw, major_ms) =>
    (sorted_desc (List.filter (fun pka => Rltb MIN_PH pka && Rltb pka MAX_PH) raw),
     smiles2inchi env major_ms)
  | None =>
    ([], match moltype with
         | MT_inchi => Some molstring
         | MT_smiles => smiles2inchi env molstring
         end)
  end.

(** [Compound.get_species_pka]. *)
Definition get_species_pka (molstring : option string) (moltype : MolType)
    : Ladder :=
  match molstring with
  | None => mkLadder [] (-1)%Z [] []
  | Some ms =>
    let '(pKas, major_ms_inchi) := species_pka_try ms moltype in
    let '(atom_bag, major_ms_charge) :=
      get_atom_bag_and_charge_from_inchi env major_ms_inchi in
    let major_ms_nH := default 0%Z (atom_bag !! "H"%string) in
    let n_species := S (length pKas) in
    let majorMSpH7 :=
      match pKas with
      | [] => 0%Z
      | _ => Z.of_nat (length (List.filter (fun pka => Rltb 7 pka) pKas))
      end in
    mkLadder pKas majorMSpH7
      (map (fun i => (Z.of_nat i - majorMSpH7) + major_ms_nH)%Z
           (seq 0 n_species))
      (map (fun i => (Z.of_nat i - majorMSpH7) + major_ms_charge)%Z
           (seq 0 n_species))
  end.

(** ** External calls and compound construction *)

(** The external calls the cache layer makes: the structure lookup of
    [get_inchi] and a ChemAxon pKa prediction. *)
Inductive Event :=
| EvResolve (cid : Z)
| EvPredict (molstring : string).

Definition species_pka_calls (molstring : option string) : list Event :=
  match molstring with None => [] | Some s => [EvPredict s] end.

End Transform.

(** Python ['%05d' % n]. *)
Fixpoint zeros (n : nat) : string :=
  match n with O => EmptyString | S k => String.append "0" (zeros k) end.
Definition pad05 (n : Z) : string :=
  let digits := pretty (Z.abs_N n) in
  if (n <? 0)%Z
  then String.append "-" (String.append (zeros (4 - String.length digits)) digits)
  else String.append (zeros (5 - String.length digits)) digits.
Definition kegg_id (cid : Z) : string := String.append "C" (pad05 cid).

Definition is_none {A} (o : option A) : bool :=
  match o with None => true | Some _ => false end.

Section Cache.
Variable env : Collaborators.

(** [Compound.from_kegg], with the external calls it makes. *)
Definition from_kegg (cid : Z) : Compound * list Event :=
  let inchi := get_inchi env cid in
  if (Z.eqb cid 80 || is_none inchi)%bool then
    (mkCompound "KEGG" (kegg_id cid) inchi [] 0%Z [0%Z] [0%Z], [EvResolve cid])
  else
    let L := get_species_pka env inchi MT_inchi in
    (mkCompound "KEGG" (kegg_id cid) inchi
       (l_pKas L) (l_majorMSpH7 L) (l_nHs L) (l_zs L),
     EvResolve cid :: species_pka_calls inchi).

(** ** Compound cache *)

(** The state of the [CompoundCacher] singleton, with the external calls
    made so far. *)
Record CacheState := mkCacheState {
  compound_dict : gmap string Compound;
  compound_ids : list string;
  need_to_update_cache_file : bool;
  calls : list Event
}.

(** [CompoundCacher.get_kegg_compound]; the source's local [compound_id] is
    [cid_key]. *)
Definition get_kegg_compound (cid : Z) (st : CacheState)
    : Compound * CacheState :=
  let cid_key := kegg_id cid in
  match compound_dict st !! cid_key with
  | Some c => (c, st)
  | None =>
    let '(comp, evs) := from_kegg cid in
    (comp, mkCacheState (<[compound_id comp := comp]> (compound_dict st))
                        (compound_ids st) true (calls st ++ evs))
  end.

(** A row of the additions TSV after [int(row['cid'])]; [row['inchi']] is
    [None] when the row is shorter than the header. *)
Record AdditionRow := mkAdditionRow {
  row_cid : Z;
  row_inchi : option string
}.

(** One iteration of the loop of [CompoundCacher.get_kegg_additions]; the
    source's locals [compound_id] and [inchi] are [cid_key] and [new_inchi]
    here, as those names are the record's fields. *)
Definition kegg_addition_step (st : CacheState) (row : AdditionRow)
    : CacheState :=
  let cid := row_cid row in
  let cid_key := kegg_id cid in
  let new_inchi := row_inchi row in
  let stale := match compound_dict st !! cid_key with
               | None => true
               | Some c => negb (bool_decide (new_inchi = inchi c))
               end in
  if stale then
    let L := get_species_pka env new_inchi MT_inchi in
    let comp := mkCompound "KEGG" cid_key new_inchi
                  (l_pKas L) (l_majorMSpH7 L) (l_nHs L) (l_zs L) in
    mkCacheState (<[compound_id comp := comp]> (compound_dict st))
                 (compound_ids st) true (calls st ++ species_pka_calls new_inchi)
  else st.

(** [CompoundCacher.get_kegg_additions]. *)
Definition get_kegg_additions (rows : list AdditionRow) (st : CacheState)
    : CacheState :=
  fold_left kegg_addition_step rows st.

End Cache.

(** A record of the persisted JSON cache. *)
Record JsonRecord := mkJsonRecord {
  j_database : string;
  j_id : string;
  j_inchi : option string;
  j_pKas : list R;
  j_majorMSpH7 : Z;
  j_nHs : list Z;
  j_zs : list Z
}.

(** [Compound.from_json_dict]. *)
Definition from_json_dict (d : JsonRecord) : Compound :=
  mkCompound (j_database d) (j_id d) (j_inchi d) (j_pKas d)
             (j_majorMSpH7 d) (j_nHs d) (j_zs d).

(** One iteration of the loop of [CompoundCacher.load]. *)
Definition load_record (st : CacheState) (d : JsonRecord) : CacheState :=
  mkCacheState (<[j_id d := from_json_dict d]> (compound_dict st))
               (compound_ids st ++ [j_id d])
               (need_to_update_cache_file st) (calls st).

(** [CompoundCacher.load]; [None] when the cache file does not exist. *)
Definition load (file : option (list JsonRecord)) (st : CacheState)
    : CacheState :=
  let st0 := mkCacheState ∅ [] (need_to_update_cache_file st) (calls st) in
  match file with
  | None => st0
  | Some ds => fold_left load_record ds st0
  end.

(** Python [l[k]] on a list: a negative [k] counts from the end; [None] is
    the [IndexError] raised out of range. *)
Definition py_getitem {A} (l : list A) (k : Z) : option A :=
  if (0 <=? k)%Z then nth_error l (Z.to_nat k)
  else if (Z.of_nat (length l) + k <? 0)%Z then None
  else nth_error l (Z.to_nat (Z.of_nat (length l) + k)).

(** The major-microspecies part of [Compound.__str__],
    [self.nHs[self.majorMSpH7], self.zs[self.majorMSpH7]]; [None] when the
    indexing raises [IndexError]. *)
Definition str_major_ms (c : Compound) : option (Z * Z) :=
  match py_getitem (nHs c) (majorMSpH7 c), py_getitem (zs c) (majorMSpH7 c) with
  | Some nH, Some z => Some (nH, z)
  | _, _ => None
  end.

(** ** Elemental matrix *)

(** Python [sorted] on strings, as an insertion sort. *)
Fixpoint insert_str (x : string) (l : list string) : list string :=
  match l with
  | [] => [x]
  | y :: r => if String.leb x y then x :: y :: r else y :: insert_str x r
  end.
Definition sorted_str (l : list string) : list string :=
  fold_right insert_str [] l.

(** A cell of the float matrix [Ematrix]: an integer count or [np.nan]. *)
Inductive Entry := Num (z : Z) | NaN.

Section Ematrix.
Variable env : Collaborators.

(** The sum over elements of count * atomic number. *)
Definition n_protons (atom_bag : gmap string Z) : Z :=
  fold_right Z.add 0%Z
    (map (fun '(elem, count) => count * GetAtomicNum env elem)%Z
         (map_to_list atom_bag)).

(** [Compound.get_atom_bag_with_electrons]. *)
Definition get_atom_bag_with_electrons (c : Compound)
    : option (gmap string Z) :=
  match inchi c with
  | None => None
  | Some s =>
    let '(atom_bag, charge) := get_atom_bag_and_charge_from_inchi env (Some s) in
    Some (<["e-" := (n_protons atom_bag - charge)%Z]> atom_bag)
  end.

(** The first loop of [CompoundCacher.get_kegg_ematrix]. *)
Fixpoint ematrix_loop (cids : list Z) (elements_set : gset string)
    (st : CacheState)
    : gset string * list (option (gmap string Z)) * CacheState :=
  match cids with
  | [] => (elements_set, [], st)
  | cid :: rest =>
    let '(comp, st1) := get_kegg_compound env cid st in
    let atom_bag := get_atom_bag_with_electrons comp in
    let elements1 := match atom_bag with
                     | Some b => elements_set ∪ dom b
                     | None => elements_set
                     end in
    let '(els, bags, st2) := ematrix_loop rest elements1 st1 in
    (els, atom_bag :: bags, st2)
  end.

Definition ematrix_row (elements : list string)
    (atom_bag : option (gmap string Z)) : list Entry :=
  match atom_bag with
  | None => map (fun _ => NaN) elements
  | Some b => map (fun elem => Num (default 0%Z (b !! elem))) elements
  end.

(** [CompoundCacher.get_kegg_ematrix]. *)
Definition get_kegg_ematrix (cids : list Z) (st : CacheState)
    : (list string * list (list Entry)) * CacheState :=
  let '(elements_set, atom_bag_list, st') := ematrix_loop cids ∅ st in
  let elements := sorted_str (elements (elements_set ∖ {["H"%string]})) in
  ((elements, map (ematrix_row elements) atom_bag_list), st').

(** The electron count of the spec's sentence, computed from the structure
    of the dominant microspecies at pH 7 (the InChI that [get_species_pka]
    extracts charge and hydrogens from). *)
Definition dominant_structure (c : Compound) : option string :=
  match inchi c with
  | None => None
  | Some s => snd (species_pka_try env s MT_inchi)
  end.

Definition electrons_of (structure : option string) : Z :=
  let '(atom_bag, charge) := get_atom_bag_and_charge_from_inchi env structure in
  (n_protons atom_bag - charge)%Z.

End Ematrix.

(** The cell of a matrix row under a column name. *)
Fixpoint column_of (elements : list string) (row : list Entry) (name : string)
    : option Entry :=
  match elements, row with
  | e :: es, x :: xs => if String.eqb e name then Some x else column_of es xs name
  | _, _ => None
  end.

(** The compounds [get_kegg_ematrix] obtains, one [get_kegg_compound] call
    per identity, in order. *)
Fixpoint get_kegg_compounds (env : Collaborators) (cids : list Z)
    (st : CacheState) : list Compound * CacheState :=
  match cids with
  | [] => ([], st)
  | cid :: rest =>
    let '(c, st1) := get_kegg_compound env cid st in
    let '(cs, st2) := get_kegg_compounds env rest st1 in
    (c :: cs, st2)
  end.

(** ** Persistence *)

(** [Compound.to_json_dict]. *)
Definition to_json_dict (c : Compound) : JsonRecord :=
  mkJsonRecord (database c) (compound_id c) (inchi c) (pKas c)
               (majorMSpH7 c) (nHs c) (zs c).

(** Python [sorted(values, key=lambda d: d.compound_id)], a stable
    insertion sort. *)
Fixpoint insert_by_id (c : Compound) (l : list Compound) : list Compound :=
  match l with
  | [] => [c]
  | y :: r => if String.leb (compound_id c) (compound_id y) then c :: y :: r
              else y :: insert_by_id c r
  end.
Definition sort_by_id (l : list Compound) : list Compound :=
  fold_right insert_by_id [] l.

(** [CompoundCacher.dump]: the new state and the records written to the
    cache file, [None] when nothing is written. *)
Definition dump (st : CacheState) : CacheState * option (list JsonRecord) :=
  if need_to_update_cache_file st then
    let data := sort_by_id (map snd (map_to_list (compound_dict st))) in
    (mkCacheState (compound_dict st) (compound_ids st) false (calls st),
     Some (map to_json_dict data))
  else (st, None).

(** [CompoundCacher.__init__]: [load], [get_kegg_additions], [dump], from a
    clean state. *)
Definition init_cacher (env : Collaborators) (file : option (list JsonRecord))
    (rows : list AdditionRow) : CacheState * option (list JsonRecord) :=
  let st0 := mkCacheState ∅ [] false [] in
  dump (get_kegg_additions env rows (load file st0)).

(** Every cache entry is stored under its own compound id. *)
Definition cache_keys_ok (m : gmap string Compound) : Prop :=
  map_Forall (fun k c => compound_id c = k) m.

(** ** The formula parser of [get_atom_bag_and_charge_from_inchi]

    Python 2 [re] on byte strings: [\d] is [0-9], [\w] is [0-9A-Za-z_]. *)

Definition is_digit (a : Ascii.ascii) : bool :=
  let n := Ascii.nat_of_ascii a in (48 <=? n)%nat && (n <=? 57)%nat.
Definition is_upper (a : Ascii.ascii) : bool :=
  let n := Ascii.nat_of_ascii a in (65 <=? n)%nat && (n <=? 90)%nat.
Definition is_lower (a : Ascii.ascii) : bool :=
  let n := Ascii.nat_of_ascii a in (97 <=? n)%nat && (n <=? 122)%nat.
Definition is_word (a : Ascii.ascii) : bool :=
  (is_digit a || is_upper a || is_lower a || (Ascii.nat_of_ascii a =? 95)%nat)%bool.

Fixpoint take_while (p : Ascii.ascii -> bool) (s : string) : string :=
  match s with
  | EmptyString => EmptyString
  | String a r => if p a then String a (take_while p r) else EmptyString
  end.

Fixpoint str_take (k : nat) (s : string) : string :=
  match k, s with
  | O, _ | _, EmptyString => EmptyString
  | S k', String a r => String a (str_take k' r)
  end.

Fixpoint str_drop (k : nat) (s : string) : string :=
  match k, s with
  | O, _ => s
  | _, EmptyString => EmptyString
  | S k', String _ r => str_drop k' r
  end.

(** Python [s.split(sep)]. *)
Fixpoint split_on (sep : Ascii.ascii) (s : string) : list string :=
  match s with
  | EmptyString => [EmptyString]
  | String a r =>
    let rest := split_on sep r in
    if Ascii.eqb a sep then EmptyString :: rest
    else match rest with
         | h :: t => String a h :: t
         | [] => [String a EmptyString]
         end
  end.

(** Python [int(s)] on a string of decimal digits. *)
Fixpoint digits_value_acc (acc : Z) (s : string) : Z :=
  match s with
  | EmptyString => acc
  | String a r =>
    digits_value_acc (acc * 10 + (Z.of_nat (Ascii.nat_of_ascii a) - 48))%Z r
  end.
Definition digits_value (s : string) : Z := digits_value_acc 0%Z s.

(** [re.findall('^(\d+)?(\w+)', s)]: the anchored pattern matches at most
    once, at position 0. The optional group first takes [k] digits for
    [k] from the longest digit prefix down to 1, and is skipped last;
    [\w+] then takes the longest run of word characters. The result is
    [(times, mol_formula)], [None] for an unmatched group. *)
Fixpoint head_try (s : string) (k : nat) : option (option string * string) :=
  match k with
  | O => let w := take_while is_word s in
         if String.eqb w EmptyString then None else Some (None, w)
  | S k' => let w := take_while is_word (str_drop k s) in
            if String.eqb w EmptyString then head_try s k'
            else Some (Some (str_take k s), w)
  end.

Definition head_match (s : string) : option (option string * string) :=
  head_try s (String.length (take_while is_digit s)).

(** The inner [re.findall] over [mol_formula]: a match is an upper-case
    letter, then the longest run of lower-case letters (the atom), then
    the longest run of digits (the count). The scan tries a match at each
    position and resumes after it; every match takes at least one
    character, so [String.length s] steps suffice. *)
Fixpoint findall_atoms_go (fuel : nat) (s : string) : list (string * string) :=
  match fuel with
  | O => []
  | S f =>
    match s with
    | EmptyString => []
    | String a r =>
      if is_upper a then
        let lw := take_while is_lower r in
        let r1 := str_drop (String.length lw) r in
        let dg := take_while is_digit r1 in
        (String a lw, dg) :: findall_atoms_go f (str_drop (String.length dg) r1)
      else findall_atoms_go f r
    end
  end.

Definition findall_atoms (s : string) : list (string * string) :=
  findall_atoms_go (String.length s) s.

(** The innermost loop: [atom_bag[atom] = atom_bag.get(atom, 0) + count * times]. *)
Definition add_atoms (times : Z) (m : gmap string Z) (ms : list (string * string))
    : gmap string Z :=
  fold_left (fun m '(atom, count) =>
               let n := if String.eqb count EmptyString then 1%Z
                        else digits_value count in
               <[atom := (default 0%Z (m !! atom) + n * times)%Z]> m) ms m.

(** The body of the loop over [formula.split('.')]. *)
Definition add_formula_part (m : gmap string Z) (mol_formula_times : string)
    : gmap string Z :=
  match head_match mol_formula_times with
  | None => m
  | Some (times, mol_formula) =>
    let t := match times with
             | None => 1%Z
             | Some d => if String.eqb d EmptyString then 1%Z else digits_value d
             end in
    add_atoms t m (findall_atoms mol_formula)
  end.

Definition atom_bag_of_formula (formula : string) : gmap string Z :=
  fold_left add_formula_part (split_on (Ascii.ascii_of_nat 46) formula) ∅.

(** Every character of a string satisfies [p]. *)
Fixpoint str_forall (p : Ascii.ascii -> bool) (s : string) : bool :=
  match s with
  | EmptyString => true
  | String a r => p a && str_forall p r
  end.

(** An element symbol as the inner pattern matches it: an upper-case letter
    followed by lower-case letters. *)
Definition is_symbol (atom : string) : bool :=
  match atom with
  | EmptyString => false
  | String a r => is_upper a && str_forall is_lower r
  end.

(** [Compound.get_atom_bag_and_charge_from_inchi], with ChemAxon's
    [GetFormulaAndCharge] as a parameter. *)
Definition get_atom_bag_and_charge_from_inchi_impl
    (GetFormulaAndCharge : option string -> string * Z) (inchi : option string)
    : gmap string Z * Z :=
  let '(formula, formal_charge) := GetFormulaAndCharge inchi in
  (atom_bag_of_formula formula, formal_charge).

(** ** A concrete environment for the examples

    Compound 1 has structure ["A"]; ChemAxon finds no pKa in the usable
    range and reports a major microspecies ["B"]. The proton (80) has the
    structure ["P"], on which ChemAxon fails. *)
Definition env0 : Collaborators := {|
  Rgas := 831 / 100000;
  debye_huckel := fun _ => 0;
  get_inchi := fun cid => if Z.eqb cid 1 then Some "A"%string
                          else if Z.eqb cid 80 then Some "P"%string else None;
  GetDissociationConstants := fun s =>
    if String.eqb s "A" then Some ([], "Bsmiles"%string) else None;
  smiles2inchi := fun s =>
    if String.eqb s "Bsmiles" then Some "B"%string else None;
  get_atom_bag_and_charge_from_inchi := fun o =>
    match o with
    | Some s => if String.eqb s "A" then (<["C":=1%Z]> (<["H":=4%Z]> ∅), 0%Z)
                else (<["C":=1%Z]> (<["H":=3%Z]> ∅), 0%Z)
    | None => (∅, 0%Z)
    end;
  GetAtomicNum := fun e => if String.eqb e "C" then 6%Z else 1%Z
|}.

Definition st_empty : CacheState := mkCacheState ∅ [] false [].

(** A persisted record with two hydrogen counts but one charge and no pKa. *)
Definition bad_record : JsonRecord :=
  mkJsonRecord "KEGG" "C00001" (Some "A"%string) [] 0%Z [0%Z; 1%Z] [0%Z].

(** A compound with one pKa above 7: the species at pH 7 is the second
    one, the neutral species is the first. *)
Definition c_acid : Compound :=
  mkCompound "KEGG" "C00001" (Some "A"%string) [8] 1%Z [0%Z; 1%Z] [0%Z; 1%Z].

(** A second environment: ChemAxon reports five candidate pKas for ["A"]
    (two of them outside (0, 14)) and a major microspecies ["B"] with three
    hydrogens and charge -1; the Debye-Huckel term is 1/2. *)
Definition env1 : Collaborators := {|
  Rgas := 831 / 100000;
  debye_huckel := fun _ => 1 / 2;
  get_inchi := get_inchi env0;
  GetDissociationConstants := fun s =>
    if String.eqb s "A" then Some ([3; 15; 9; -1; 8], "Bsmiles"%string) else None;
  smiles2inchi := smiles2inchi env0;
  get_atom_bag_and_charge_from_inchi := fun o =>
    match o with
    | Some s => if String.eqb s "B" then (<["C":=2%Z]> (<["H":=3%Z]> ∅), (-1)%Z)
                else (<["C":=1%Z]> (<["H":=4%Z]> ∅), 0%Z)
    | None => (∅, 0%Z)
    end;
  GetAtomicNum := GetAtomicNum env0
|}.

(** A compound with a structure and a single microspecies with two
    hydrogens and charge -1. *)
Definition c_single : Compound :=
  mkCompound "KEGG" "C00001" (Some "A"%string) [] 0%Z [2%Z] [(-1)%Z].

(** Three records of the cache file; the first and the last share an id. *)
Definition rec_a : JsonRecord :=
  mkJsonRecord "KEGG" "C00001" (Some "A"%string) [] 0%Z [0%Z] [0%Z].
Definition rec_b : JsonRecord :=
  mkJsonRecord "KEGG" "C00002" None [5] 1%Z [0%Z] [0%Z; 1%Z].
Definition rec_a' : JsonRecord :=
  mkJsonRecord "KEGG" "C00001" (Some "A2"%string) [] 0%Z [1%Z] [0%Z].

(** * Lemmas *)

(** ** Lists *)

Lemma length_cumsum_acc a l : length (cumsum_acc a l) = length l.
Proof. revert a; induction l; simpl; auto. Qed.

Lemma nth_cumsum_acc l : forall a j, (j < length l)%nat ->
  nth j (cumsum_acc a l) 0 = fold_left Rplus (firstn (S j) l) a.
Proof.
  induction l as [|x l IH]; intros a j Hj; simpl in *; [lia|].
  destruct j as [|j]; [reflexivity|].
  rewrite IH by lia. reflexivity.
Qed.

Lemma map_combine3_seq {A B C D} (F : A * B * C -> D) (da : A) (db : B) (dc : C)
  (a : list A) : forall b c m,
  length a = m -> length b = m -> length c = m ->
  map F (combine (combine a b) c)
  = map (fun i => F (nth i a da, nth i b db, nth i c dc)) (seq 0 m).
Proof.
  induction a as [|x a IH]; intros b c m Ha Hb Hc; simpl in *.
  - subst m. reflexivity.
  - destruct m as [|m]; [discriminate|].
    destruct b as [|y b]; [discriminate|]. destruct c as [|z c]; [discriminate|].
    simpl in *. f_equal.
    rewrite (IH b c m) by lia.
    rewrite <- seq_shift, map_map. reflexivity.
Qed.

Lemma nth_map_lt {A B} (f : A -> B) (l : list A) (d : B) (d0 : A) i :
  (i < length l)%nat -> nth i (map f l) d = f (nth i l d0).
Proof.
  intros Hi. rewrite (nth_indep _ d (f d0)) by (rewrite length_map; lia).
  apply map_nth.
Qed.

Lemma py_index_none x l : py_index x l = None <-> ~ In x l.
Proof.
  induction l as [|y l IH]; simpl; [tauto|].
  destruct (Z.eqb_spec y x) as [->|Hne].
  - split; [discriminate|tauto].
  - destruct (py_index x l); simpl; split; intros H.
    + discriminate.
    + exfalso. destruct (in_dec Z.eq_dec x l) as [Hin|Hin]; [tauto|].
      apply IH in Hin. discriminate.
    + intros [E|E]; [congruence|]. apply IH in H. tauto.
    + reflexivity.
Qed.

Lemma py_index_some x l k : py_index x l = Some k ->
  (k < length l)%nat /\ nth k l 0%Z = x /\
  (forall j, (j < k)%nat -> nth j l 0%Z <> x).
Proof.
  revert k; induction l as [|y l IH]; intros k H; simpl in *; [discriminate|].
  destruct (Z.eqb_spec y x) as [->|Hne].
  - injection H as <-. repeat split; [lia|]. intros; lia.
  - destruct (py_index x l) as [k'|] eqn:E; simpl in H; [|discriminate].
    injection H as <-. destruct (IH k' eq_refl) as (H1 & H2 & H3).
    repeat split; [lia|assumption|].
    intros [|j] Hj; [assumption|]. apply H3. lia.
Qed.

Lemma py_index_in x l : In x l -> exists k, py_index x l = Some k.
Proof.
  intros H. destruct (py_index x l) as [k|] eqn:E; [eauto|].
  apply py_index_none in E. contradiction.
Qed.

(** ** The shared term [_transform] *)

Lemma dG0s_nth env c T i : (i < S (length (pKas c)))%nat ->
  nth i (match pKas c with
         | [] => [0]
         | _ => map (fun s => - s * Rgas env * T * ln 10) (cumsum (0 :: pKas c))
         end) 0
  = E_ref env c T i.
Proof.
  intros Hi. unfold E_ref. destruct (pKas c) as [|p ps] eqn:Ep.
  - simpl in Hi. assert (i = 0%nat) as -> by lia. simpl.
    unfold py_sum. simpl. ring.
  - rewrite (nth_map_lt _ _ _ 0)
      by (unfold cumsum; rewrite length_cumsum_acc; exact Hi).
    f_equal. f_equal. f_equal. f_equal. unfold py_sum.
    unfold cumsum. destruct i as [|j]; [simpl; ring|].
    change (nth (S j) (cumsum_acc 0 (0 :: p :: ps)) 0)
      with (nth j (cumsum_acc (0 + 0) (p :: ps)) 0).
    rewrite nth_cumsum_acc by (simpl in *; lia).
    rewrite Rplus_0_l. reflexivity.
Qed.

Lemma dG0s_length env c T :
  length (match pKas c with
          | [] => [0]
          | _ => map (fun s => - s * Rgas env * T * ln 10) (cumsum (0 :: pKas c))
          end) = S (length (pKas c)).
Proof.
  destruct (pKas c) eqn:Ep; [reflexivity|].
  rewrite length_map. unfold cumsum. rewrite length_cumsum_acc. reflexivity.
Qed.

Lemma transform_core env c pH I T :
  (inchi c = None \/ ladder_shape c) ->
  _transform env c pH I T = Ok (core_ref env c pH I T).
Proof.
  intros Hc. unfold _transform, core_ref.
  destruct (inchi c) as [s|] eqn:Ei; [|reflexivity].
  destruct Hc as [Hc|[Hn Hz]]; [discriminate|].
  rewrite !dG0s_length, Hn, Hz, Nat.eqb_refl. simpl andb. cbv iota.
  f_equal. f_equal. f_equal.
  rewrite map_map.
  rewrite (map_combine3_seq _ 0 0%Z 0%Z _ _ _ (S (length (pKas c))))
    by (rewrite ?dG0s_length; auto).
  apply map_ext_in. intros i Hi. apply in_seq in Hi.
  rewrite dG0s_nth by lia. reflexivity.
Qed.

Lemma transform_core_none env c pH I T :
  inchi c = None -> _transform env c pH I T = Ok 0.
Proof. intros H. unfold _transform. rewrite H. reflexivity. Qed.

Lemma ln_10_pos : 0 < ln 10.
Proof. rewrite <- ln_1. apply ln_increasing; lra. Qed.

(** * Claims: the transform *)

(** C1: [transform(pH, I, T)] is [baseOffset(majorMSIndex) + core(pH, I, T)],
    the sum of the first [majorMSIndex] pKas times R * T * ln(10) added to
    the shared term [_transform] (an error of [_transform] is passed on). *)
Theorem transform_base_offset env c pH I T (Hm : (0 <= majorMSpH7 c)%Z) :
  transform env c pH I T
  = result_map (fun core => baseOffset env c T (Z.to_nat (majorMSpH7 c)) + core)
               (_transform env c pH I T).
Proof.
  unfold transform, baseOffset, py_slice_to.
  apply Z.leb_le in Hm. rewrite Hm.
  destruct (_transform env c pH I T); simpl; [f_equal; ring|reflexivity].
Qed.

(** C2: the shared term [_transform] is exactly 0 for a compound without a
    structure, and for a compound whose ladder has one hydrogen count and one
    charge per microspecies it is the reference reduction
    [-R*T * logsumexp(V[i] / (-R*T))] over the species [0 .. len(pKas)], with
    [E[i] = -(sum of pKas[0..i)) * R*T*ln(10)] and
    [V[i] = E[i] + nHs[i]*(R*T*ln(10)*pH + D) - zs[i]^2 * D]. *)
Theorem core_reference env c pH I T :
  (inchi c = None -> _transform env c pH I T = Ok 0) /\
  (ladder_shape c -> _transform env c pH I T = Ok (core_ref env c pH I T)).
Proof.
  split; intros H.
  - apply transform_core_none, H.
  - apply transform_core. right. exact H.
Qed.

(** C3: on a compound with a well-shaped ladder, [transform_neutral] fails
    with the missing-zero-charge error exactly when no entry of [zs] is 0;
    otherwise it returns [baseOffset(k) + core(pH, I, T)] for the first
    index [k] with [zs[k] = 0]. It is a pure function: the compound is not
    changed. *)
Theorem transform_neutral_domain env c pH I T (Hs : ladder_shape c) :
  (transform_neutral env c pH I T = Err (NoZeroChargeSpecies (compound_id c))
   <-> ~ In 0%Z (zs c)) /\
  (In 0%Z (zs c) ->
   exists k, py_index 0 (zs c) = Some k /\ nth k (zs c) 0%Z = 0%Z /\
             (forall j, (j < k)%nat -> nth j (zs c) 0%Z <> 0%Z) /\
             transform_neutral env c pH I T
             = Ok (baseOffset env c T k + core_ref env c pH I T)).
Proof.
  assert (Hcore := transform_core env c pH I T (or_intror Hs)).
  assert (Hok : forall k, py_index 0 (zs c) = Some k ->
            transform_neutral env c pH I T
            = Ok (baseOffset env c T k + core_ref env c pH I T)).
  { intros k Hk. unfold transform_neutral, baseOffset. rewrite Hk, Hcore.
    simpl. f_equal. ring. }
  split.
  - split.
    + intros H Hin. destruct (py_index_in _ _ Hin) as [k Hk].
      rewrite (Hok k Hk) in H. discriminate.
    + intros Hnin. apply py_index_none in Hnin.
      unfold transform_neutral. rewrite Hnin. reflexivity.
  - intros Hin. destruct (py_index_in _ _ Hin) as [k Hk].
    destruct (py_index_some _ _ _ Hk) as (_ & H1 & H2).
    exists k. repeat split; auto.
Qed.

(** C9 (as amended): when [zs] contains 0, [transform - transform_neutral]
    is [baseOffset(majorMSIndex) - baseOffset(indexOfZeroCharge)], that is
    the difference of the two pKa partial sums times R * T * ln(10): it does
    not depend on pH or I, and it is proportional to T. *)
Theorem transform_minus_neutral env c pH I T k
  (Hs : ladder_shape c) (Hm : (0 <= majorMSpH7 c)%Z)
  (Hk : py_index 0 (zs c) = Some k) :
  exists v w, transform env c pH I T = Ok v /\
              transform_neutral env c pH I T = Ok w /\
              v - w = baseOffset env c T (Z.to_nat (majorMSpH7 c))
                      - baseOffset env c T k /\
              v - w = (py_sum (firstn (Z.to_nat (majorMSpH7 c)) (pKas c))
                       - py_sum (firstn k (pKas c))) * Rgas env * T * ln 10.
Proof.
  assert (Hcore := transform_core env c pH I T (or_intror Hs)).
  unfold transform, transform_neutral, py_slice_to.
  apply Z.leb_le in Hm. rewrite Hm, Hk, Hcore. simpl.
  do 2 eexists. split; [reflexivity|]. split; [reflexivity|].
  unfold baseOffset. split; ring.
Qed.

(** C9, as stated, fails: on [c_acid] the difference between [transform] and
    [transform_neutral] is [8 * R * T * ln(10)], which changes with T. *)
Lemma transform_minus_neutral_depends_on_T :
  ~ (exists K, forall pH I T v w,
        transform env0 c_acid pH I T = Ok v ->
        transform_neutral env0 c_acid pH I T = Ok w ->
        v - w = K).
Proof.
  intros [K HK].
  assert (Hc : forall T, _transform env0 c_acid 0 0 T
                         = Ok (core_ref env0 c_acid 0 0 T))
    by (intros; apply transform_core; right; split; reflexivity).
  assert (Ht : forall T, transform env0 c_acid 0 0 T
     = Ok (core_ref env0 c_acid 0 0 T
           + py_sum (py_slice_to 1 [8]) * Rgas env0 * T * ln 10)).
  { intros T. cbv beta delta [transform] zeta. rewrite Hc. reflexivity. }
  assert (Hn : forall T, transform_neutral env0 c_acid 0 0 T
     = Ok (core_ref env0 c_acid 0 0 T
           + py_sum (firstn 0 [8]) * Rgas env0 * T * ln 10)).
  { intros T. cbv beta delta [transform_neutral] zeta. simpl py_index.
    cbv iota. rewrite Hc. reflexivity. }
  assert (H1 := HK 0 0 1 _ _ (Ht 1) (Hn 1)).
  assert (H2 := HK 0 0 2 _ _ (Ht 2) (Hn 2)).
  unfold py_sum, py_slice_to in H1, H2. simpl in H1, H2.
  assert (L := ln_10_pos). nra.
Qed.

(** ** Sorting *)

Lemma Rltb_spec x y : Rltb x y = true <-> x < y.
Proof. unfold Rltb. destruct (Rlt_dec x y); split; auto; discriminate. Qed.

Lemma insert_desc_perm x l : Permutation (insert_desc x l) (x :: l).
Proof.
  induction l as [|y l IH]; simpl; [reflexivity|].
  destruct (Rltb y x); [reflexivity|].
  rewrite IH. apply perm_swap.
Qed.

Lemma sorted_desc_perm l : Permutation (sorted_desc l) l.
Proof.
  induction l as [|x l IH]; simpl; [reflexivity|].
  rewrite insert_desc_perm, IH. reflexivity.
Qed.

Lemma insert_desc_hd a x l :
  HdRel Rge a l -> a >= x -> HdRel Rge a (insert_desc x l).
Proof.
  intros Hd Hax. destruct l as [|y l]; simpl.
  - constructor. exact Hax.
  - destruct (Rltb y x); constructor; [exact Hax|]. inversion Hd; assumption.
Qed.

Lemma insert_desc_sorted x l : Sorted Rge l -> Sorted Rge (insert_desc x l).
Proof.
  induction l as [|y l IH]; intros Hs; simpl.
  - repeat constructor.
  - destruct (Rltb y x) eqn:E.
    + apply Rltb_spec in E. constructor; [exact Hs|]. constructor. lra.
    + assert (~ y < x) as E' by (intros H; apply Rltb_spec in H; congruence).
      inversion Hs as [|? ? Hr Hd]; subst.
      constructor; [apply IH, Hr|]. apply insert_desc_hd; [exact Hd|lra].
Qed.

Lemma sorted_desc_sorted l : Sorted Rge (sorted_desc l).
Proof.
  induction l as [|x l IH]; simpl; [constructor|]. apply insert_desc_sorted, IH.
Qed.

Lemma nth_map_seq (f : nat -> Z) n i : (i < n)%nat ->
  nth i (map f (seq 0 n)) 0%Z = f i.
Proof.
  intros Hi. rewrite (nth_map_lt _ _ _ 0%nat) by (rewrite length_seq; exact Hi).
  rewrite seq_nth by exact Hi. reflexivity.
Qed.

(** * Claims: the ladder derivation *)

(** C4: when ChemAxon succeeds on a structure, [get_species_pka] keeps
    exactly the candidate pKas strictly inside (0, 14), sorted descending;
    [majorMSpH7] is the number of them above 7; and species [i] (for [i] in
    [0 .. len(pKas)]) has [nHs[i] = (i - majorMSpH7) + dominantH] and
    [zs[i] = (i - majorMSpH7) + dominantCharge], where the hydrogen count and
    the charge are those of the major microspecies reported by ChemAxon. *)
Theorem get_species_pka_ladder env s mt raw major_ms
  (Hp : GetDissociationConstants env s = Some (raw, major_ms)) :
  let L := get_species_pka env (Some s) mt in
  let dominant := get_atom_bag_and_charge_from_inchi env (smiles2inchi env major_ms) in
  let dominantH := default 0%Z (fst dominant !! "H"%string) in
  let dominantCharge := snd dominant in
  Permutation (l_pKas L) (List.filter (fun pka => Rltb 0 pka && Rltb pka 14) raw) /\
  Forall (fun pka => 0 < pka < 14) (l_pKas L) /\
  Sorted Rge (l_pKas L) /\
  l_majorMSpH7 L = Z.of_nat (length (List.filter (fun pka => Rltb 7 pka) (l_pKas L))) /\
  length (l_nHs L) = S (length (l_pKas L)) /\
  length (l_zs L) = S (length (l_pKas L)) /\
  (forall i, (i < S (length (l_pKas L)))%nat ->
     nth i (l_nHs L) 0%Z = (Z.of_nat i - l_majorMSpH7 L + dominantH)%Z /\
     nth i (l_zs L) 0%Z = (Z.of_nat i - l_majorMSpH7 L + dominantCharge)%Z).
Proof.
  cbv zeta. unfold get_species_pka, species_pka_try. rewrite Hp.
  destruct (get_atom_bag_and_charge_from_inchi env (smiles2inchi env major_ms))
    as [bag charge] eqn:Ed.
  unfold MIN_PH, MAX_PH. cbv beta iota zeta.
  set (ps := sorted_desc (List.filter (fun pka => Rltb 0 pka && Rltb pka 14) raw)).
  assert (Hperm : Permutation ps (List.filter (fun pka => Rltb 0 pka && Rltb pka 14) raw))
    by apply sorted_desc_perm.
  set (m := match ps with [] => 0%Z | _ :: _ => Z.of_nat (length (List.filter (fun pka => Rltb 7 pka) ps)) end).
  assert (Hm : m = Z.of_nat (length (List.filter (fun pka => Rltb 7 pka) ps)))
    by (unfold m; destruct ps; reflexivity).
  cbn [l_pKas l_majorMSpH7 l_nHs l_zs fst snd].
  repeat split.
  - exact Hperm.
  - apply List.Forall_forall. intros p Hin.
    apply (Permutation_in _ Hperm), filter_In in Hin.
    destruct Hin as [_ Hb]. apply andb_true_iff in Hb.
    destruct Hb as [H1 H2]. apply Rltb_spec in H1, H2. lra.
  - apply sorted_desc_sorted.
  - exact Hm.
  - rewrite length_map, length_seq. reflexivity.
  - rewrite length_map, length_seq. reflexivity.
  - rewrite nth_map_seq by assumption. reflexivity.
  - rewrite nth_map_seq by assumption. reflexivity.
Qed.

(** On the [get_kegg_compound] miss path ([from_kegg]) the proton (cid 80)
    and every identity whose structure lookup yields nothing get the
    degenerate ladder [pKas = [], majorMSpH7 = 0, nHs = [0], zs = [0]];
    [get_species_pka] itself answers an absent structure with
    [pKas = [], majorMSpH7 = -1, nHs = [], zs = []]. *)
Lemma from_kegg_degenerate env cid mt :
  ((cid = 80)%Z \/ get_inchi env cid = None ->
   let c := fst (from_kegg env cid) in
   pKas c = [] /\ majorMSpH7 c = 0%Z /\ nHs c = [0%Z] /\ zs c = [0%Z]) /\
  get_species_pka env None mt = mkLadder [] (-1)%Z [] [].
Proof.
  split; [|reflexivity].
  intros H. unfold from_kegg.
  assert (Hb : (Z.eqb cid 80 || is_none (get_inchi env cid))%bool = true).
  { destruct H as [->|H]; [reflexivity|]. rewrite H. apply orb_true_r. }
  rewrite Hb. repeat split.
Qed.

(** C5 fails on the additions path: an additions row without an InChI
    column reaches [get_species_pka] with an absent structure, and the cache then stores
    [majorMSpH7 = -1, nHs = [], zs = []] instead of the degenerate ladder. *)
Lemma additions_absent_structure_not_degenerate :
  compound_dict (get_kegg_additions env0 [mkAdditionRow 5 None] st_empty)
    !! "C00005"%string
  = Some (mkCompound "KEGG" "C00005" None [] (-1)%Z [] []).
Proof. reflexivity. Qed.

(** A step of the additions loop either leaves the state as it is or marks
    the cache dirty. *)
Lemma addition_step_cases env st r :
  kegg_addition_step env st r = st \/
  need_to_update_cache_file (kegg_addition_step env st r) = true.
Proof.
  unfold kegg_addition_step. cbv zeta.
  destruct (compound_dict st !! kegg_id (row_cid r)) as [c|].
  - case_bool_decide; simpl; auto.
  - simpl; auto.
Qed.

Lemma addition_step_lookup_ne env st r k : k <> kegg_id (row_cid r) ->
  compound_dict (kegg_addition_step env st r) !! k = compound_dict st !! k.
Proof.
  intros Hk. unfold kegg_addition_step. cbv zeta.
  destruct (compound_dict st !! kegg_id (row_cid r)) as [c|].
  - case_bool_decide; simpl; [reflexivity|]. apply lookup_insert_ne. congruence.
  - simpl. apply lookup_insert_ne. congruence.
Qed.

Lemma additions_lookup_other env rows k : forall st,
  Forall (fun r => kegg_id (row_cid r) <> k) rows ->
  compound_dict (get_kegg_additions env rows st) !! k = compound_dict st !! k.
Proof.
  unfold get_kegg_additions.
  induction rows as [|r rows IH]; intros st Hall; simpl; [reflexivity|].
  inversion Hall as [|? ? Hr Hrest]; subst.
  rewrite IH by exact Hrest. apply addition_step_lookup_ne. congruence.
Qed.

Lemma additions_flag_mono env rows : forall st,
  need_to_update_cache_file st = true ->
  need_to_update_cache_file (get_kegg_additions env rows st) = true.
Proof.
  unfold get_kegg_additions.
  induction rows as [|r rows IH]; intros st Hst; simpl; [exact Hst|].
  apply IH. destruct (addition_step_cases env st r) as [->|H]; assumption.
Qed.

(** A step of the additions loop on a row whose entry is missing or holds
    another InChI stores the ladder [get_species_pka] derives from the row's
    InChI, marks the cache dirty and makes the calls of that derivation. *)
Lemma addition_step_stale env st r
  (Hstale : compound_dict st !! kegg_id (row_cid r) = None \/
            exists c, compound_dict st !! kegg_id (row_cid r) = Some c /\
                      inchi c <> row_inchi r) :
  let L := get_species_pka env (row_inchi r) MT_inchi in
  kegg_addition_step env st r
  = mkCacheState
      (<[kegg_id (row_cid r) := mkCompound "KEGG" (kegg_id (row_cid r)) (row_inchi r)
                                  (l_pKas L) (l_majorMSpH7 L) (l_nHs L) (l_zs L)]>
         (compound_dict st))
      (compound_ids st) true (calls st ++ species_pka_calls (row_inchi r)).
Proof.
  cbv zeta. unfold kegg_addition_step. cbv zeta.
  destruct Hstale as [E|(c & E & Hc)]; rewrite E; [reflexivity|].
  rewrite bool_decide_eq_false_2 by congruence. reflexivity.
Qed.

(** C5 (a defect of the code): the additions path skips the absent-structure
    rule. Reconciling an additions row without an InChI, whose entry is
    missing or has a structure, stores the answer of [get_species_pka] to an
    absent structure, [pKas = [], majorMSpH7 = -1, nHs = [], zs = []], not
    the degenerate ladder [from_kegg] gives an identity without a structure
    ([majorMSpH7 = 0, nHs = [0], zs = [0]]); [Compound.__str__] raises
    [IndexError] on the stored compound, and succeeds on that of
    [from_kegg]. *)
Theorem additions_absent_structure_ladder env st r
  (Hr : row_inchi r = None)
  (Hstale : compound_dict st !! kegg_id (row_cid r) = None \/
            exists c, compound_dict st !! kegg_id (row_cid r) = Some c /\
                      inchi c <> None) :
  let st' := get_kegg_additions env [r] st in
  let c := mkCompound "KEGG" (kegg_id (row_cid r)) None [] (-1)%Z [] [] in
  compound_dict st' !! kegg_id (row_cid r) = Some c /\
  majorMSpH7 c <> 0%Z /\ nHs c <> [0%Z] /\ zs c <> [0%Z] /\
  str_major_ms c = None /\
  (get_inchi env (row_cid r) = None ->
   let c' := fst (from_kegg env (row_cid r)) in
   inchi c' = None /\ pKas c' = [] /\ majorMSpH7 c' = 0%Z /\
   nHs c' = [0%Z] /\ zs c' = [0%Z] /\ str_major_ms c' = Some (0%Z, 0%Z)).
Proof.
  cbv zeta. unfold get_kegg_additions. simpl fold_left.
  rewrite (addition_step_stale env st r) by (rewrite Hr; exact Hstale).
  rewrite Hr. cbn [compound_dict get_species_pka l_pKas l_majorMSpH7 l_nHs l_zs].
  split; [apply lookup_insert_eq|].
  split; [discriminate|]. split; [discriminate|]. split; [discriminate|].
  split; [reflexivity|].
  intros Hn.
  destruct (proj1 (from_kegg_degenerate env (row_cid r) MT_inchi) (or_intror Hn))
    as (Hp & Hm & Hh & Hz).
  assert (Hi : inchi (fst (from_kegg env (row_cid r))) = None).
  { unfold from_kegg. rewrite Hn, orb_true_r. reflexivity. }
  split; [exact Hi|]. split; [exact Hp|]. split; [exact Hm|].
  split; [exact Hh|]. split; [exact Hz|].
  unfold str_major_ms. rewrite Hm, Hh, Hz. reflexivity.
Qed.

Lemma from_kegg_id env cid : compound_id (fst (from_kegg env cid)) = kegg_id cid.
Proof. unfold from_kegg. destruct (_ || _)%bool; reflexivity. Qed.

(** * Claims: the compound cache *)

(** C6: a lookup of an identity already in the cache returns the stored
    compound and leaves the whole cache state unchanged (mapping, dirty flag,
    and no external call); so two lookups in a row return the same compound,
    and the external calls they make are at most those of one [from_kegg]. *)
Theorem get_kegg_compound_cached env st cid :
  (forall c, compound_dict st !! kegg_id cid = Some c ->
             get_kegg_compound env cid st = (c, st)) /\
  (let '(c1, st1) := get_kegg_compound env cid st in
   let '(c2, st2) := get_kegg_compound env cid st1 in
   c2 = c1 /\ st2 = st1 /\
   (calls st2 = calls st \/ calls st2 = calls st ++ snd (from_kegg env cid))).
Proof.
  split.
  - intros c Hc. unfold get_kegg_compound. rewrite Hc. reflexivity.
  - unfold get_kegg_compound.
    destruct (compound_dict st !! kegg_id cid) as [c|] eqn:E.
    + rewrite E. auto.
    + destruct (from_kegg env cid) as [comp evs] eqn:Ef. simpl.
      assert (Hid : compound_id comp = kegg_id cid)
        by (rewrite <- (from_kegg_id env cid), Ef; reflexivity).
      rewrite Hid, lookup_insert_eq. auto.
Qed.

Definition insert_compound (m : gmap string Compound) (c : Compound)
    : gmap string Compound :=
  <[compound_id c := c]> m.

Lemma fold_insert_other l k : forall m,
  (forall c, In c l -> compound_id c <> k) ->
  fold_left insert_compound l m !! k = m !! k.
Proof.
  induction l as [|x l IH]; intros m Hl; simpl; [reflexivity|].
  rewrite IH by (intros c Hc; apply Hl; right; exact Hc).
  unfold insert_compound. apply lookup_insert_ne.
  intros E. apply (Hl x (or_introl eq_refl)). exact E.
Qed.

Lemma load_fold_dict ds : forall st,
  compound_dict (fold_left load_record ds st)
  = fold_left insert_compound (map from_json_dict ds) (compound_dict st).
Proof.
  induction ds as [|d ds IH]; intros st; simpl; [reflexivity|]. apply IH.
Qed.

Lemma load_record_flag ds : forall st,
  need_to_update_cache_file (fold_left load_record ds st)
  = need_to_update_cache_file st.
Proof.
  induction ds as [|d ds IH]; intros st; simpl; [reflexivity|].
  rewrite IH. reflexivity.
Qed.

Lemma load_record_ids ds : forall st,
  compound_ids (fold_left load_record ds st) = compound_ids st ++ map j_id ds.
Proof.
  induction ds as [|d ds IH]; intros st; simpl; [symmetry; apply app_nil_r|].
  rewrite IH. simpl. rewrite <- app_assoc. reflexivity.
Qed.

Lemma load_record_calls ds : forall st,
  calls (fold_left load_record ds st) = calls st.
Proof.
  induction ds as [|d ds IH]; intros st; simpl; [reflexivity|].
  rewrite IH. reflexivity.
Qed.

(** C7 (as amended): loading performs no invariant check and re-derives
    nothing. Each persisted record [d] that no later record of the same id
    replaces is stored under its id as [from_json_dict d], as it is; an id
    that no record carries has no entry; the ids are listed in file order;
    the dirty flag is kept and no external call is made. *)
Theorem load_keeps_records ds st :
  let st' := load (Some ds) st in
  (forall pre d post, ds = pre ++ d :: post ->
     Forall (fun d' => j_id d' <> j_id d) post ->
     compound_dict st' !! j_id d = Some (from_json_dict d)) /\
  (forall k, Forall (fun d => j_id d <> k) ds -> compound_dict st' !! k = None) /\
  compound_ids st' = map j_id ds /\
  need_to_update_cache_file st' = need_to_update_cache_file st /\
  calls st' = calls st.
Proof.
  cbv zeta. unfold load. split; [|split; [|split; [|split]]].
  - intros pre d post -> Hpost. rewrite load_fold_dict, map_app, fold_left_app.
    simpl. rewrite fold_insert_other.
    + unfold insert_compound. apply lookup_insert_eq.
    + intros c Hc. apply in_map_iff in Hc. destruct Hc as (d' & <- & Hd').
      rewrite List.Forall_forall in Hpost. exact (Hpost d' Hd').
  - intros k Hk. rewrite load_fold_dict. rewrite fold_insert_other; [apply lookup_empty|].
    intros c Hc. apply in_map_iff in Hc. destruct Hc as (d' & <- & Hd').
    rewrite List.Forall_forall in Hk. exact (Hk d' Hd').
  - rewrite load_record_ids. reflexivity.
  - rewrite load_record_flag. reflexivity.
  - rewrite load_record_calls. reflexivity.
Qed.

(** C7, as stated, fails: a persisted record whose [nHs] and [zs] do not
    have [len(pKas) + 1] entries is loaded into the cache as it is. *)
Lemma load_keeps_malformed_record :
  ~ (forall file st id c,
        compound_dict (load file st) !! id = Some c -> ladder_shape c).
Proof.
  intros H.
  destruct (H (Some [bad_record]) st_empty "C00001"%string
              (from_json_dict bad_record) eq_refl) as [Hn _].
  discriminate Hn.
Qed.

(** C10: the additions loop derives the ladder of a row by calling
    [get_species_pka] on the row's InChI directly, with no exclusion-set or
    absent-structure check. For every row [r] of the additions file (after
    the rows [pre], and followed only by rows of other identities) whose
    entry is missing or holds another InChI when the loop reaches it, the
    cache ends with the compound built from [get_species_pka] of the row's
    InChI and is marked dirty; the row costs exactly the prediction call for
    that InChI (no structure lookup). Where [from_kegg] differs: it gives the
    proton (cid 80) the degenerate ladder, and an identity without a
    structure [nHs = [0], zs = [0]], while a row without an InChI gets
    [get_species_pka]'s [pKas = [], majorMSpH7 = -1, nHs = [], zs = []]. *)
Theorem additions_skip_exclusion env st pre r post
  (Hpost : Forall (fun r' => kegg_id (row_cid r') <> kegg_id (row_cid r)) post)
  (Hstale : compound_dict (get_kegg_additions env pre st) !! kegg_id (row_cid r) = None \/
            exists c, compound_dict (get_kegg_additions env pre st)
                        !! kegg_id (row_cid r) = Some c /\
                      inchi c <> row_inchi r) :
  let L := get_species_pka env (row_inchi r) MT_inchi in
  let st' := get_kegg_additions env (pre ++ r :: post) st in
  compound_dict st' !! kegg_id (row_cid r)
  = Some (mkCompound "KEGG" (kegg_id (row_cid r)) (row_inchi r)
            (l_pKas L) (l_majorMSpH7 L) (l_nHs L) (l_zs L)) /\
  need_to_update_cache_file st' = true /\
  calls (get_kegg_additions env (pre ++ [r]) st)
  = calls (get_kegg_additions env pre st) ++ species_pka_calls (row_inchi r) /\
  (row_cid r = 80%Z ->
   let c := fst (from_kegg env 80) in
   pKas c = [] /\ majorMSpH7 c = 0%Z /\ nHs c = [0%Z] /\ zs c = [0%Z]) /\
  (row_inchi r = None ->
   L = mkLadder [] (-1)%Z [] [] /\
   (get_inchi env (row_cid r) = None ->
    let c := fst (from_kegg env (row_cid r)) in
    nHs c = [0%Z] /\ zs c = [0%Z])).
Proof.
  cbv zeta.
  assert (Hstep := addition_step_stale env (get_kegg_additions env pre st) r Hstale).
  cbv zeta in Hstep.
  assert (Happ : forall rows, get_kegg_additions env (pre ++ r :: rows) st
                 = get_kegg_additions env rows
                     (kegg_addition_step env (get_kegg_additions env pre st) r)).
  { intros rows. unfold get_kegg_additions. rewrite fold_left_app. reflexivity. }
  rewrite !Happ, Hstep.
  split; [|split; [|split; [|split]]].
  - rewrite additions_lookup_other by exact Hpost. apply lookup_insert_eq.
  - apply additions_flag_mono. reflexivity.
  - reflexivity.
  - intros _. exact (proj1 (from_kegg_degenerate env 80 MT_inchi) (or_introl eq_refl)).
  - intros Hn. rewrite Hn. split; [reflexivity|].
    intros Hg.
    destruct (proj1 (from_kegg_degenerate env (row_cid r) MT_inchi) (or_intror Hg))
      as (_ & _ & Hh & Hz).
    split; assumption.
Qed.

(** ** The elemental matrix *)

Definition str_le (x y : string) : Prop := String.leb x y = true.

Lemma insert_str_perm x l : Permutation (insert_str x l) (x :: l).
Proof.
  induction l as [|y l IH]; simpl; [reflexivity|].
  destruct (String.leb x y); [reflexivity|].
  rewrite IH. apply perm_swap.
Qed.

Lemma sorted_str_perm l : Permutation (sorted_str l) l.
Proof.
  induction l as [|x l IH]; simpl; [reflexivity|].
  rewrite insert_str_perm, IH. reflexivity.
Qed.

Lemma insert_str_hd a x l :
  HdRel str_le a l -> str_le a x -> HdRel str_le a (insert_str x l).
Proof.
  intros Hd Hax. destruct l as [|y l]; simpl.
  - constructor. exact Hax.
  - destruct (String.leb x y); constructor; [exact Hax|]. inversion Hd; assumption.
Qed.

Lemma insert_str_sorted x l : Sorted str_le l -> Sorted str_le (insert_str x l).
Proof.
  induction l as [|y l IH]; intros Hs; simpl.
  - repeat constructor.
  - destruct (String.leb x y) eqn:E.
    + constructor; [exact Hs|]. constructor. exact E.
    + assert (Hyx : str_le y x).
      { unfold str_le. destruct (String.leb_total x y) as [H|H]; congruence. }
      inversion Hs as [|? ? Hr Hd]; subst.
      constructor; [apply IH, Hr|]. apply insert_str_hd; assumption.
Qed.

Lemma sorted_str_sorted l : Sorted str_le (sorted_str l).
Proof.
  induction l as [|x l IH]; simpl; [constructor|]. apply insert_str_sorted, IH.
Qed.

Lemma column_of_map (f : string -> Entry) elements name :
  NoDup elements -> In name elements ->
  column_of elements (map f elements) name = Some (f name).
Proof.
  induction elements as [|e es IH]; intros Hnd Hin; simpl in *; [contradiction|].
  destruct (String.eqb_spec e name) as [->|Hne]; [reflexivity|].
  inversion Hnd; subst. apply IH; [assumption|]. destruct Hin; [congruence|assumption].
Qed.

Lemma ematrix_loop_spec env cids : forall E st,
  exists Es,
  ematrix_loop env cids E st
  = (Es, map (get_atom_bag_with_electrons env) (fst (get_kegg_compounds env cids st)),
     snd (get_kegg_compounds env cids st)) /\
  (forall e, e ∈ Es <-> e ∈ E \/
     exists c b, In c (fst (get_kegg_compounds env cids st)) /\
                 get_atom_bag_with_electrons env c = Some b /\ is_Some (b !! e)).
Proof.
  induction cids as [|cid rest IH]; intros E st; simpl.
  - exists E. split; [reflexivity|]. intros e. split; [auto|].
    intros [H|(c & b & [] & _)]; exact H.
  - destruct (get_kegg_compound env cid st) as [c st1].
    set (E1 := match get_atom_bag_with_electrons env c with
               | Some b => E ∪ dom b | None => E end).
    destruct (IH E1 st1) as (Es & HL & HEs).
    destruct (get_kegg_compounds env rest st1) as [cs st2]. simpl in *.
    rewrite HL. exists Es. split; [reflexivity|].
    intros e. rewrite HEs. unfold E1. split.
    + intros [H|(c' & b & Hin & Hb & He)].
      * destruct (get_atom_bag_with_electrons env c) as [b|] eqn:Eb; [|auto].
        apply elem_of_union in H. destruct H as [H|H]; [auto|].
        right. exists c, b. repeat split; auto. apply elem_of_dom, H.
      * right. exists c', b. auto.
    + intros [H|(c' & b & [<-|Hin] & Hb & He)].
      * left. destruct (get_atom_bag_with_electrons env c); [|exact H].
        apply elem_of_union_l, H.
      * left. rewrite Hb. apply elem_of_union_r, elem_of_dom, He.
      * right. exists c', b. auto.
Qed.

Lemma length_get_kegg_compounds env cids : forall st,
  length (fst (get_kegg_compounds env cids st)) = length cids.
Proof.
  induction cids as [|cid rest IH]; intros st; simpl; [reflexivity|].
  destruct (get_kegg_compound env cid st) as [c st1].
  specialize (IH st1). destruct (get_kegg_compounds env rest st1). simpl in *. lia.
Qed.

Lemma bag_with_electrons_some env c s :
  inchi c = Some s ->
  get_atom_bag_with_electrons env c
  = Some (<["e-"%string := electrons_of env (Some s)]>
            (fst (get_atom_bag_and_charge_from_inchi env (Some s)))).
Proof.
  intros H. unfold get_atom_bag_with_electrons, electrons_of. rewrite H.
  destruct (get_atom_bag_and_charge_from_inchi env (Some s)). reflexivity.
Qed.

(** C8 (as amended): [get_kegg_ematrix] returns sorted, duplicate-free
    element columns: the keys of the compounds' atom bags except ["H"]. A
    compound with a structure fills its row with its per-element counts (0
    for elements it lacks) and, in the ["e-"] column, the sum of atomic
    number times count minus the net charge, both taken from the compound's
    own structure; a compound without a structure gets a row of NaN only.
    The compounds are those [get_kegg_compound] returns, one per identity. *)
Theorem get_kegg_ematrix_rows env cids st :
  let cs := fst (get_kegg_compounds env cids st) in
  let elements := fst (fst (get_kegg_ematrix env cids st)) in
  let M := snd (fst (get_kegg_ematrix env cids st)) in
  Sorted str_le elements /\ NoDup elements /\ ~ In "H"%string elements /\
  (forall e, In e elements <-> e <> "H"%string /\
     exists c b, In c cs /\ get_atom_bag_with_electrons env c = Some b /\
                 is_Some (b !! e)) /\
  length cs = length cids /\ length M = length cids /\
  snd (get_kegg_ematrix env cids st) = snd (get_kegg_compounds env cids st) /\
  (forall i c, nth_error cs i = Some c ->
     match inchi c with
     | None => nth_error M i = Some (repeat NaN (length elements))
     | Some s =>
       let composition := fst (get_atom_bag_and_charge_from_inchi env (Some s)) in
       nth_error M i
       = Some (map (fun e => Num (if String.eqb e "e-" then electrons_of env (Some s)
                                  else default 0%Z (composition !! e)))
                   elements) /\
       column_of elements (nth i M []) "e-" = Some (Num (electrons_of env (Some s)))
     end).
Proof.
  cbv zeta. unfold get_kegg_ematrix.
  destruct (ematrix_loop_spec env cids ∅ st) as (Es & HL & HEs).
  rewrite HL. cbn [fst snd].
  set (cs := fst (get_kegg_compounds env cids st)).
  set (elements := sorted_str (stdpp.base.elements (Es ∖ {["H"%string]}))).
  assert (Hperm : Permutation elements (stdpp.base.elements (Es ∖ {["H"%string]})))
    by apply sorted_str_perm.
  assert (Hnd : NoDup elements)
    by (rewrite Hperm; apply NoDup_elements).
  assert (Hin : forall e, In e elements <-> e <> "H"%string /\
     exists c b, In c cs /\ get_atom_bag_with_electrons env c = Some b /\
                 is_Some (b !! e)).
  { intros e. split.
    - intros H. apply (Permutation_in _ Hperm), list_elem_of_In in H.
      apply elem_of_elements, elem_of_difference in H.
      destruct H as [H1 H2]. rewrite elem_of_singleton in H2.
      apply HEs in H1. destruct H1 as [H1|H1]; [set_solver|]. auto.
    - intros [H1 H2]. apply (Permutation_in _ (Permutation_sym Hperm)).
      apply list_elem_of_In, elem_of_elements, elem_of_difference. split.
      + apply HEs. right. exact H2.
      + rewrite elem_of_singleton. exact H1. }
  assert (Hlen := length_get_kegg_compounds env cids st). fold cs in Hlen.
  split; [apply sorted_str_sorted|]. split; [exact Hnd|].
  split; [intros H; apply Hin in H; destruct H; congruence|].
  split; [exact Hin|]. split; [exact Hlen|].
  split; [rewrite !length_map; exact Hlen|]. split; [reflexivity|].
  intros i c Hc.
  assert (HM : nth_error (map (ematrix_row elements)
                           (map (get_atom_bag_with_electrons env) cs)) i
               = Some (ematrix_row elements (get_atom_bag_with_electrons env c)))
    by (rewrite !nth_error_map, Hc; reflexivity).
  destruct (inchi c) as [s|] eqn:Ei.
  - rewrite (bag_with_electrons_some env c s Ei) in HM. simpl in HM.
    set (comp := fst (get_atom_bag_and_charge_from_inchi env (Some s))) in *.
    set (f := fun e => Num (if String.eqb e "e-" then electrons_of env (Some s)
                            else default 0%Z (comp !! e))).
    assert (Hrow : map (fun elem => Num (default 0%Z
                     (<["e-"%string := electrons_of env (Some s)]> comp !! elem)))
                     elements = map f elements).
    { apply map_ext. intros e. unfold f.
      destruct (String.eqb_spec e "e-") as [->|Hne].
      - rewrite lookup_insert_eq. reflexivity.
      - rewrite lookup_insert_ne by congruence. reflexivity. }
    rewrite Hrow in HM. split; [exact HM|].
    rewrite (nth_error_nth _ _ _ HM).
    rewrite column_of_map.
    + unfold f. reflexivity.
    + exact Hnd.
    + apply Hin. split; [discriminate|].
      exists c, (<["e-"%string := electrons_of env (Some s)]> comp).
      split; [eapply nth_error_In; exact Hc|].
      split; [apply bag_with_electrons_some, Ei|].
      rewrite lookup_insert_eq. eauto.
  - assert (Hb : get_atom_bag_with_electrons env c = None)
      by (unfold get_atom_bag_with_electrons; rewrite Ei; reflexivity).
    rewrite Hb in HM. simpl in HM. rewrite HM, map_const. reflexivity.
Qed.

(** C8, as stated, fails: the ["e-"] column is computed from the compound's
    stored structure, not from the major microspecies at pH 7. For compound
    1 of [env0], the stored structure ["A"] gives 6 + 4 = 10 electrons, while
    the major microspecies ["B"] that ChemAxon reports gives 9. *)
Lemma ematrix_electrons_not_from_dominant :
  let r := fst (get_kegg_ematrix env0 [1%Z] st_empty) in
  let c := fst (get_kegg_compound env0 1 st_empty) in
  inchi c <> None /\
  column_of (fst r) (nth 0 (snd r) []) "e-" = Some (Num 10) /\
  electrons_of env0 (dominant_structure env0 c) = 9%Z.
Proof. vm_compute. split; [discriminate|]. split; reflexivity. Qed.

(** * Witnesses: the claims' hypotheses hold on concrete inputs *)

Lemma transform_base_offset_witness :
  (0 <= majorMSpH7 c_acid)%Z /\
  transform env0 c_acid 7 0 298
  = result_map (fun core => baseOffset env0 c_acid 298 1 + core)
               (_transform env0 c_acid 7 0 298).
Proof.
  split; [simpl; lia|].
  apply (transform_base_offset env0 c_acid 7 0 298). simpl; lia.
Defined.

Lemma core_reference_witness :
  ladder_shape c_acid /\
  _transform env0 c_acid 7 0 298 = Ok (core_ref env0 c_acid 7 0 298).
Proof.
  split; [split; reflexivity|].
  apply (proj2 (core_reference env0 c_acid 7 0 298)). split; reflexivity.
Defined.

Lemma transform_neutral_domain_witness :
  ladder_shape c_acid /\
  transform_neutral env0 c_acid 7 0 298
  = Ok (baseOffset env0 c_acid 298 0 + core_ref env0 c_acid 7 0 298).
Proof.
  assert (Hs : ladder_shape c_acid) by (split; reflexivity).
  split; [exact Hs|].
  destruct (proj2 (transform_neutral_domain env0 c_acid 7 0 298 Hs)
              ltac:(simpl; auto)) as (k & Hk & _ & _ & Heq).
  simpl in Hk. injection Hk as <-. exact Heq.
Defined.

(** On [env1] the ladder of ["A"] keeps 9, 8 and 3 of the five candidates,
    in that order; two of them are above 7. *)
Lemma env1_ladder :
  get_species_pka env1 (Some "A"%string) MT_inchi
  = mkLadder [9; 8; 3] 2%Z [1; 2; 3; 4]%Z [-3; -2; -1; 0]%Z.
Proof.
  assert (Hf : List.filter (fun pka => Rltb MIN_PH pka && Rltb pka MAX_PH) [3; 15; 9; -1; 8]
               = [3; 9; 8]).
  { unfold MIN_PH, MAX_PH.
    repeat (simpl; unfold Rltb; destruct (Rlt_dec _ _); try (exfalso; lra)).
    reflexivity. }
  assert (Hs : sorted_desc [3; 9; 8] = [9; 8; 3]).
  { unfold sorted_desc.
    repeat (simpl; unfold Rltb; destruct (Rlt_dec _ _); try (exfalso; lra)).
    reflexivity. }
  assert (H7 : List.filter (fun pka => Rltb 7 pka) [9; 8; 3] = [9; 8]).
  { repeat (simpl; unfold Rltb; destruct (Rlt_dec _ _); try (exfalso; lra)).
    reflexivity. }
  unfold get_species_pka, species_pka_try.
  change (GetDissociationConstants env1 "A") with (Some ([3; 15; 9; -1; 8], "Bsmiles"%string)).
  cbv iota beta. rewrite Hf, Hs.
  change (get_atom_bag_and_charge_from_inchi env1 (smiles2inchi env1 "Bsmiles"))
    with ((<["C":=2%Z]> (<["H":=3%Z]> ∅) : gmap string Z), (-1)%Z).
  cbv iota beta zeta. rewrite H7. reflexivity.
Qed.

Lemma get_species_pka_ladder_witness :
  GetDissociationConstants env1 "A" = Some ([3; 15; 9; -1; 8], "Bsmiles"%string) /\
  get_species_pka env1 (Some "A"%string) MT_inchi
  = mkLadder [9; 8; 3] 2%Z [1; 2; 3; 4]%Z [-3; -2; -1; 0]%Z /\
  Permutation [9; 8; 3]
    (List.filter (fun pka => Rltb 0 pka && Rltb pka 14) [3; 15; 9; -1; 8]) /\
  Sorted Rge [9; 8; 3] /\
  2%Z = Z.of_nat (length (List.filter (fun pka => Rltb 7 pka) [9; 8; 3])) /\
  (forall i, (i < 4)%nat ->
     nth i [1; 2; 3; 4]%Z 0%Z = (Z.of_nat i - 2 + 3)%Z /\
     nth i [-3; -2; -1; 0]%Z 0%Z = (Z.of_nat i - 2 + (-1))%Z).
Proof.
  assert (E := env1_ladder).
  destruct (get_species_pka_ladder env1 "A" MT_inchi [3; 15; 9; -1; 8] "Bsmiles" eq_refl)
    as (Hperm & _ & Hsort & Hmaj & _ & _ & Hnth).
  rewrite E in Hperm, Hsort, Hmaj, Hnth. cbn [l_pKas l_majorMSpH7 l_nHs l_zs] in *.
  split; [reflexivity|]. split; [exact E|].
  split; [exact Hperm|]. split; [exact Hsort|]. split; [exact Hmaj|].
  intros i Hi. exact (Hnth i Hi).
Defined.

Lemma additions_absent_structure_ladder_witness :
  get_inchi env0 5 = None /\
  compound_dict (get_kegg_additions env0 [mkAdditionRow 5 None] st_empty) !! "C00005"%string
  = Some (mkCompound "KEGG" "C00005" None [] (-1)%Z [] []) /\
  str_major_ms (mkCompound "KEGG" "C00005" None [] (-1)%Z [] []) = None /\
  nHs (fst (from_kegg env0 5)) = [0%Z] /\
  str_major_ms (fst (from_kegg env0 5)) = Some (0%Z, 0%Z).
Proof.
  destruct (additions_absent_structure_ladder env0 st_empty (mkAdditionRow 5 None)
              eq_refl (or_introl eq_refl))
    as (H & _ & _ & _ & Hs & Hk).
  destruct (Hk eq_refl) as (_ & _ & _ & Hh & _ & Hs').
  split; [reflexivity|]. split; [exact H|]. split; [exact Hs|].
  split; [exact Hh|exact Hs'].
Defined.

Lemma get_kegg_compound_cached_witness :
  let st1 := snd (get_kegg_compound env0 1 st_empty) in
  let c1 := fst (get_kegg_compound env0 1 st_empty) in
  compound_dict st1 !! kegg_id 1 = Some c1 /\
  get_kegg_compound env0 1 st1 = (c1, st1).
Proof.
  cbv zeta. split; [reflexivity|].
  apply (proj1 (get_kegg_compound_cached env0 (snd (get_kegg_compound env0 1 st_empty)) 1)).
  reflexivity.
Defined.

Lemma get_kegg_ematrix_rows_witness :
  nth_error (fst (get_kegg_compounds env0 [1%Z] st_empty)) 0
  = Some (fst (get_kegg_compound env0 1 st_empty)) /\
  column_of (fst (fst (get_kegg_ematrix env0 [1%Z] st_empty)))
            (nth 0 (snd (fst (get_kegg_ematrix env0 [1%Z] st_empty))) [])
            "e-" = Some (Num (electrons_of env0 (Some "A"%string))).
Proof.
  split; [reflexivity|].
  pose proof (get_kegg_ematrix_rows env0 [1%Z] st_empty) as H. cbv zeta in H.
  destruct H as (_ & _ & _ & _ & _ & _ & _ & H).
  specialize (H 0%nat (fst (get_kegg_compound env0 1 st_empty)) eq_refl).
  change (inchi (fst (get_kegg_compound env0 1 st_empty))) with (Some "A"%string) in H.
  destruct H as [_ H]. exact H.
Defined.

Lemma transform_minus_neutral_witness :
  ladder_shape c_acid /\ (0 <= majorMSpH7 c_acid)%Z /\
  py_index 0 (zs c_acid) = Some 0%nat /\
  exists v w, transform env0 c_acid 7 0 298 = Ok v /\
              transform_neutral env0 c_acid 7 0 298 = Ok w /\
              v - w = baseOffset env0 c_acid 298 1 - baseOffset env0 c_acid 298 0.
Proof.
  assert (Hs : ladder_shape c_acid) by (split; reflexivity).
  assert (Hm : (0 <= majorMSpH7 c_acid)%Z) by (simpl; lia).
  split; [exact Hs|]. split; [exact Hm|]. split; [reflexivity|].
  destruct (transform_minus_neutral env0 c_acid 7 0 298 0 Hs Hm eq_refl)
    as (v & w & H1 & H2 & H3 & _).
  exists v, w. auto.
Defined.

Lemma load_keeps_records_witness :
  compound_dict (load (Some [rec_a; rec_b; rec_a']) st_empty) !! "C00002"%string
  = Some (from_json_dict rec_b) /\
  compound_dict (load (Some [rec_a; rec_b; rec_a']) st_empty) !! "C00001"%string
  = Some (from_json_dict rec_a') /\
  compound_dict (load (Some [rec_a; rec_b; rec_a']) st_empty) !! "C00003"%string = None /\
  compound_ids (load (Some [rec_a; rec_b; rec_a']) st_empty)
  = ["C00001"; "C00002"; "C00001"]%string.
Proof.
  destruct (load_keeps_records [rec_a; rec_b; rec_a'] st_empty)
    as (Hkeep & Hnone & Hids & _ & _).
  split; [|split; [|split]].
  - apply (Hkeep [rec_a] rec_b [rec_a'] eq_refl).
    constructor; [|constructor]. simpl. discriminate.
  - apply (Hkeep [rec_a; rec_b] rec_a' [] eq_refl). constructor.
  - apply Hnone. repeat constructor; simpl; discriminate.
  - exact Hids.
Defined.

Lemma additions_skip_exclusion_witness :
  compound_dict (get_kegg_additions env0 [mkAdditionRow 1 (Some "A"%string)] st_empty)
    !! "C00080"%string = None /\
  compound_dict (get_kegg_additions env0
                   [mkAdditionRow 1 (Some "A"%string); mkAdditionRow 80 (Some "P"%string);
                    mkAdditionRow 1 (Some "A"%string)] st_empty)
    !! "C00080"%string
  = Some (mkCompound "KEGG" "C00080" (Some "P"%string) [] 0%Z [3%Z] [0%Z]) /\
  nHs (fst (from_kegg env0 80)) = [0%Z].
Proof.
  assert (Hpost : Forall (fun r' => kegg_id (row_cid r') <> kegg_id (row_cid (mkAdditionRow 80 (Some "P"%string))))
                    [mkAdditionRow 1 (Some "A"%string)]).
  { constructor; [|constructor]. intros E. vm_compute in E. discriminate E. }
  destruct (additions_skip_exclusion env0 st_empty [mkAdditionRow 1 (Some "A"%string)]
              (mkAdditionRow 80 (Some "P"%string)) [mkAdditionRow 1 (Some "A"%string)]
              Hpost (or_introl eq_refl))
    as (H & _ & _ & H80 & _).
  split; [reflexivity|]. split; [exact H|].
  destruct (H80 eq_refl) as (_ & _ & Hh & _). exact Hh.
Defined.

(** On [env0] the proton's additions record gets three hydrogens from the
    extracted composition, where [from_kegg] gives it none. *)
Example proton_addition_ladder :
  l_nHs (get_species_pka env0 (Some "P"%string) MT_inchi) = [3%Z] /\
  nHs (fst (from_kegg env0 80)) = [0%Z].
Proof. split; reflexivity. Qed.

(** * Further properties of the code *)

(** ** The transform *)

Lemma Rln_le x y : 0 < x -> x <= y -> ln x <= ln y.
Proof.
  intros Hx [Hlt| ->]; [|lra]. left. apply ln_increasing; assumption.
Qed.

Lemma exp_le_exp x y : x <= y -> exp x <= exp y.
Proof. intros [Hlt| ->]; [left; apply exp_increasing, Hlt|lra]. Qed.

Lemma sum_exp_nonneg l : 0 <= fold_right Rplus 0 (map exp l).
Proof.
  induction l as [|x l IH]; simpl; [lra|]. assert (H := exp_pos x). lra.
Qed.

Lemma exp_le_sum y l : In y l -> exp y <= fold_right Rplus 0 (map exp l).
Proof.
  induction l as [|x l IH]; intros Hin; simpl in *; [contradiction|].
  destruct Hin as [->|Hin].
  - assert (H := sum_exp_nonneg l). lra.
  - assert (H := exp_pos x). specialize (IH Hin). lra.
Qed.

Lemma sum_exp_le_max l : l <> [] ->
  exists y, In y l /\ fold_right Rplus 0 (map exp l) <= INR (length l) * exp y.
Proof.
  induction l as [|x l IH]; intros Hne; [congruence|].
  destruct l as [|x' l'].
  - exists x. simpl. split; [auto|]. lra.
  - destruct (IH ltac:(discriminate)) as (y & Hy & Hsum).
    set (n := length (x' :: l')) in *.
    change (length (x :: x' :: l')) with (S n). rewrite S_INR.
    change (fold_right Rplus 0 (map exp (x :: x' :: l')))
      with (exp x + fold_right Rplus 0 (map exp (x' :: l'))).
    assert (Hn : 0 <= INR n) by apply pos_INR.
    destruct (Rle_dec y x) as [Hyx|Hxy].
    + exists x. split; [left; reflexivity|].
      assert (H := exp_le_exp _ _ Hyx). nra.
    + exists y. split; [right; exact Hy|].
      assert (H := exp_le_exp x y ltac:(lra)). nra.
Qed.

Lemma transform_single_species_aux env c s nH z pH I T
  (Hi : inchi c = Some s) (Hp : pKas c = []) (Hn : nHs c = [nH]) (Hz : zs c = [z])
  (HRT : Rgas env * T <> 0) :
  transform env c pH I T
  = Ok (IZR nH * (Rgas env * T * ln 10 * pH + debye_huckel env (I, T))
        - IZR z ^ 2 * debye_huckel env (I, T)).
Proof.
  unfold transform, _transform, py_slice_to, logsumexp.
  rewrite Hi, Hp, Hn, Hz. simpl.
  destruct (0 <=? majorMSpH7 c)%Z; simpl; rewrite ?firstn_nil;
    unfold py_sum; simpl; rewrite Rplus_0_r, ln_exp; f_equal; field;
    try split; intros Hc; apply HRT; rewrite Hc; ring.
Qed.

(** A compound with a structure and a single microspecies (no pKa) has the
    closed-form transform [nH * (R*T*ln(10)*pH + DH) - z^2 * DH]: the
    log-sum-exp over one term is that term. *)
Theorem transform_single_species env c s nH z pH I T
  (Hi : inchi c = Some s) (Hp : pKas c = []) (Hn : nHs c = [nH]) (Hz : zs c = [z])
  (HRT : Rgas env * T <> 0) :
  transform env c pH I T
  = Ok (IZR nH * (Rgas env * T * ln 10 * pH + debye_huckel env (I, T))
        - IZR z ^ 2 * debye_huckel env (I, T)).
Proof. exact (transform_single_species_aux env c s nH z pH I T Hi Hp Hn Hz HRT). Qed.

(** The proton as [from_kegg] builds it has transform 0 at every pH, ionic
    strength and temperature: the exclusion removes it from the Legendre
    transform. *)
Theorem proton_transform_zero env pH I T (HRT : Rgas env * T <> 0) :
  transform env (fst (from_kegg env 80)) pH I T = Ok 0.
Proof.
  unfold from_kegg. simpl.
  destruct (get_inchi env 80) as [s|] eqn:Ei.
  - rewrite (transform_single_species_aux env _ s 0 0 pH I T)
      by (reflexivity || exact HRT).
    f_equal. simpl. ring.
  - unfold transform, _transform, py_slice_to. simpl.
    unfold py_sum. simpl. f_equal. ring.
Qed.

(** With a structure, [_transform] raises the [np.vstack] shape error
    exactly when [nHs] or [zs] does not have one entry per microspecies. *)
Theorem transform_shape_error env c s pH I T (Hi : inchi c = Some s) :
  _transform env c pH I T = Err ShapeMismatch <-> ~ ladder_shape c.
Proof.
  split.
  - intros Herr Hs. rewrite (transform_core env c pH I T (or_intror Hs)) in Herr.
    discriminate.
  - intros Hns. unfold _transform. rewrite Hi, !dG0s_length.
    destruct (Nat.eqb_spec (S (length (pKas c))) (length (nHs c))) as [E1|E1];
    destruct (Nat.eqb_spec (S (length (pKas c))) (length (zs c))) as [E2|E2];
      simpl; try reflexivity.
    exfalso. apply Hns. split; congruence.
Qed.

(** For R*T > 0 the ensemble energy [_transform] is a soft minimum of the
    species energies [V[i]]: it is at most every [V[i]], and at least the
    smallest [V[i]] minus R*T*ln(number of species). *)
Theorem transform_soft_min env c s pH I T
  (Hs : ladder_shape c) (Hi : inchi c = Some s) (HRT : 0 < Rgas env * T) :
  exists v, _transform env c pH I T = Ok v /\
    (forall i, (i <= length (pKas c))%nat -> v <= V_ref env c pH I T i) /\
    (exists i, (i <= length (pKas c))%nat /\
       V_ref env c pH I T i - Rgas env * T * ln (INR (S (length (pKas c)))) <= v).
Proof.
  exists (core_ref env c pH I T).
  split; [apply transform_core; right; exact Hs|].
  unfold core_ref. rewrite Hi. unfold logsumexp.
  set (xs := map (fun i => V_ref env c pH I T i / (- Rgas env * T))
                 (seq 0 (S (length (pKas c))))).
  assert (HRT' : - Rgas env * T <> 0) by lra.
  split.
  - intros i Hle.
    assert (Hin : In (V_ref env c pH I T i / (- Rgas env * T)) xs).
    { unfold xs. apply in_map_iff. exists i. split; [reflexivity|].
      apply in_seq. lia. }
    assert (Hl := Rln_le _ _ (exp_pos _) (exp_le_sum _ _ Hin)).
    rewrite ln_exp in Hl.
    set (a := V_ref env c pH I T i / (- Rgas env * T)) in *.
    assert (Ha : V_ref env c pH I T i = - Rgas env * T * a) by (unfold a; field; repeat split; intro Hc; rewrite Hc in HRT; lra).
    rewrite Ha. nra.
  - destruct (sum_exp_le_max xs) as (y & Hy & Hsum).
    { unfold xs. simpl. discriminate. }
    apply in_map_iff in Hy. destruct Hy as (i & <- & Hin). apply in_seq in Hin.
    exists i. split; [lia|].
    assert (Hlen : length xs = S (length (pKas c)))
      by (unfold xs; rewrite length_map, length_seq; reflexivity).
    rewrite Hlen in Hsum.
    assert (Hpos : 0 < INR (S (length (pKas c)))) by (apply lt_0_INR; lia).
    assert (Hsum_pos : 0 < fold_right Rplus 0 (map exp xs)).
    { eapply Rlt_le_trans; [apply (exp_pos (V_ref env c pH I T 0 / (- Rgas env * T)))|].
      apply exp_le_sum. unfold xs. apply in_map_iff. exists 0%nat.
      split; [reflexivity|]. apply in_seq. lia. }
    assert (Hl := Rln_le _ _ Hsum_pos Hsum).
    rewrite ln_mult, ln_exp in Hl by (auto; apply exp_pos).
    set (a := V_ref env c pH I T i / (- Rgas env * T)) in *.
    assert (Ha : V_ref env c pH I T i = - Rgas env * T * a) by (unfold a; field; repeat split; intro Hc; rewrite Hc in HRT; lra).
    rewrite Ha. nra.
Qed.

(** ** The ladder derivation *)

Lemma sorted_desc_strongly l : Sorted Rge l -> StronglySorted Rge l.
Proof. apply Sorted_StronglySorted. intros x y z; lra. Qed.

(** In a descending list, the positions before the number of entries above
    7 hold exactly those entries, the positions from there on hold the
    others. *)
Lemma count_above_split l : StronglySorted Rge l ->
  forall i,
    ((i < length (List.filter (fun pka => Rltb 7 pka) l))%nat -> 7 < nth i l 0) /\
    ((length (List.filter (fun pka => Rltb 7 pka) l) <= i < length l)%nat ->
       nth i l 0 <= 7).
Proof.
  induction 1 as [|x l Hs IH Hall]; intros i; simpl; [split; lia|].
  destruct (Rltb 7 x) eqn:Ex.
  - apply Rltb_spec in Ex. simpl. destruct i as [|i].
    + split; [intros _; exact Ex|lia].
    + destruct (IH i) as [H1 H2]. split; intros H; [apply H1|apply H2]; lia.
  - assert (Hx : x <= 7) by (unfold Rltb in Ex; destruct (Rlt_dec 7 x); [discriminate|lra]).
    assert (Hnone : List.filter (fun pka => Rltb 7 pka) l = []).
    { rewrite List.Forall_forall in Hall.
      destruct (List.filter (fun pka => Rltb 7 pka) l) as [|y r] eqn:Ef; [reflexivity|].
      assert (Hy : In y (List.filter (fun pka => Rltb 7 pka) l)) by (rewrite Ef; left; auto).
      apply filter_In in Hy. destruct Hy as [Hy Hb]. apply Rltb_spec in Hb.
      specialize (Hall y Hy). lra. }
    rewrite Hnone. simpl. split; [lia|]. intros _.
    destruct i as [|i]; [exact Hx|].
    destruct (Nat.lt_ge_cases i (length l)) as [Hi|Hi].
    + rewrite List.Forall_forall in Hall. specialize (Hall (nth i l 0) (nth_In _ _ Hi)). lra.
    + rewrite nth_overflow by exact Hi. lra.
Qed.

Lemma species_pka_try_sorted env s mt : Sorted Rge (fst (species_pka_try env s mt)).
Proof.
  unfold species_pka_try.
  destruct (GetDissociationConstants env s) as [[raw major_ms]|]; simpl;
    [apply sorted_desc_sorted|constructor].
Qed.

Lemma get_species_pka_well_formed_aux env s mt :
  let L := get_species_pka env (Some s) mt in
  let dominant := get_atom_bag_and_charge_from_inchi env (snd (species_pka_try env s mt)) in
  let n := length (l_pKas L) in
  length (l_nHs L) = S n /\ length (l_zs L) = S n /\
  exists m, l_majorMSpH7 L = Z.of_nat m /\ (m <= n)%nat /\
    nth m (l_nHs L) 0%Z = default 0%Z (fst dominant !! "H"%string) /\
    nth m (l_zs L) 0%Z = snd dominant /\
    (forall i, (i < n)%nat ->
       nth (S i) (l_nHs L) 0%Z = (nth i (l_nHs L) 0 + 1)%Z /\
       nth (S i) (l_zs L) 0%Z = (nth i (l_zs L) 0 + 1)%Z) /\
    (forall i, (i < m)%nat -> 7 < nth i (l_pKas L) 0) /\
    (forall i, (m <= i < n)%nat -> nth i (l_pKas L) 0 <= 7).
Proof.
  cbv zeta. unfold get_species_pka.
  assert (Hsort := species_pka_try_sorted env s mt).
  destruct (species_pka_try env s mt) as [ps mi]. cbn [fst snd] in *.
  destruct (get_atom_bag_and_charge_from_inchi env mi) as [bag charge].
  set (m := length (List.filter (fun pka => Rltb 7 pka) ps)).
  assert (Hm : match ps with [] => 0%Z | _ :: _ => Z.of_nat m end = Z.of_nat m)
    by (unfold m; destruct ps; reflexivity).
  cbn [l_pKas l_majorMSpH7 l_nHs l_zs fst snd]. rewrite Hm.
  assert (Hle : (m <= length ps)%nat) by apply filter_length_le.
  rewrite !length_map, !length_seq. split; [reflexivity|]. split; [reflexivity|].
  exists m. split; [reflexivity|]. split; [exact Hle|].
  rewrite !nth_map_seq by lia.
  split; [lia|]. split; [lia|]. split.
  - intros i Hi. rewrite !nth_map_seq by lia. lia.
  - assert (Hsplit := count_above_split ps (sorted_desc_strongly _ Hsort)).
    split; intros i Hi; apply (Hsplit i); unfold m in *; lia.
Qed.

(** For every structure, on both the ChemAxon success and failure paths,
    [get_species_pka] builds a well-formed ladder: one hydrogen count and
    one charge per species, a major index [m] with [0 <= m <= len(pKas)]
    at which the ladder has exactly the hydrogen count and charge of the
    major microspecies, consecutive species differing by one hydrogen and
    one unit of charge, and [m] splitting the descending pKas into those
    above 7 (before [m]) and those at most 7 (from [m] on). *)
Theorem get_species_pka_well_formed env s mt :
  let L := get_species_pka env (Some s) mt in
  let dominant := get_atom_bag_and_charge_from_inchi env (snd (species_pka_try env s mt)) in
  let n := length (l_pKas L) in
  length (l_nHs L) = S n /\ length (l_zs L) = S n /\
  exists m, l_majorMSpH7 L = Z.of_nat m /\ (m <= n)%nat /\
    nth m (l_nHs L) 0%Z = default 0%Z (fst dominant !! "H"%string) /\
    nth m (l_zs L) 0%Z = snd dominant /\
    (forall i, (i < n)%nat ->
       nth (S i) (l_nHs L) 0%Z = (nth i (l_nHs L) 0 + 1)%Z /\
       nth (S i) (l_zs L) 0%Z = (nth i (l_zs L) 0 + 1)%Z) /\
    (forall i, (i < m)%nat -> 7 < nth i (l_pKas L) 0) /\
    (forall i, (m <= i < n)%nat -> nth i (l_pKas L) 0 <= 7).
Proof. apply get_species_pka_well_formed_aux. Qed.

(** When ChemAxon fails on a structure, [get_species_pka] falls back to a
    single species without pKa: [pKas = []], [majorMSpH7 = 0], and the
    hydrogen count and charge of the input itself (an InChI as it is, a
    SMILES string after conversion to InChI). *)
Theorem get_species_pka_fallback env s mt
  (Hp : GetDissociationConstants env s = None) :
  let major_ms_inchi := match mt with
                        | MT_inchi => Some s
                        | MT_smiles => smiles2inchi env s
                        end in
  let dominant := get_atom_bag_and_charge_from_inchi env major_ms_inchi in
  get_species_pka env (Some s) mt
  = mkLadder [] 0%Z [default 0%Z (fst dominant !! "H"%string)] [snd dominant].
Proof.
  cbv zeta. unfold get_species_pka, species_pka_try. rewrite Hp.
  destruct (get_atom_bag_and_charge_from_inchi env _) as [bag charge].
  simpl. f_equal; f_equal; lia.
Qed.

(** Every compound [from_kegg] builds is stored under [C%05d] of its
    identity with the looked-up structure, has a well-formed ladder with
    [0 <= majorMSpH7 <= len(pKas)], and so its transform never raises. *)
Theorem from_kegg_well_formed env cid :
  let c := fst (from_kegg env cid) in
  database c = "KEGG"%string /\ compound_id c = kegg_id cid /\
  inchi c = get_inchi env cid /\ ladder_shape c /\
  (0 <= majorMSpH7 c <= Z.of_nat (length (pKas c)))%Z /\
  (forall pH I T, exists v, transform env c pH I T = Ok v).
Proof.
  cbv zeta.
  assert (Hsh : ladder_shape (fst (from_kegg env cid)) /\
                (0 <= majorMSpH7 (fst (from_kegg env cid))
                   <= Z.of_nat (length (pKas (fst (from_kegg env cid)))))%Z).
  { unfold from_kegg.
    destruct (Z.eqb cid 80 || is_none (get_inchi env cid))%bool eqn:Eb.
    - simpl. split; [split; reflexivity|lia].
    - destruct (get_inchi env cid) as [s|] eqn:Ei; [|simpl in Eb; rewrite orb_true_r in Eb; discriminate].
      destruct (get_species_pka_well_formed_aux env s MT_inchi)
        as (H1 & H2 & m & Hm & Hle & _).
      unfold ladder_shape. cbn [fst majorMSpH7 pKas nHs zs]. split; [split; assumption|]. rewrite Hm. lia. }
  destruct Hsh as [Hsh Hmaj].
  split; [unfold from_kegg; destruct (_ || _)%bool; reflexivity|].
  split; [apply from_kegg_id|].
  split; [unfold from_kegg; destruct (_ || _)%bool; reflexivity|].
  split; [exact Hsh|]. split; [exact Hmaj|].
  intros pH I T. unfold transform.
  rewrite (transform_core env _ pH I T (or_intror Hsh)).
  eexists. reflexivity.
Qed.

(** An additions row with no InChI column for an identity missing from the
    cache (or cached with a structure) stores a compound without structure
    and with the empty ladder [majorMSpH7 = -1, nHs = [], zs = []]: its
    [transform] is 0 and its [transform_neutral] raises, as [zs] has no
    zero-charge species. *)
Theorem additions_missing_inchi env st cid pH I T
  (Hstale : compound_dict st !! kegg_id cid = None \/
            exists c, compound_dict st !! kegg_id cid = Some c /\ inchi c <> None) :
  let st' := get_kegg_additions env [mkAdditionRow cid None] st in
  exists c, compound_dict st' !! kegg_id cid = Some c /\
    c = mkCompound "KEGG" (kegg_id cid) None [] (-1)%Z [] [] /\
    transform env c pH I T = Ok 0 /\
    transform_neutral env c pH I T = Err (NoZeroChargeSpecies (kegg_id cid)) /\
    calls st' = calls st.
Proof.
  cbv zeta. unfold get_kegg_additions. simpl fold_left.
  unfold kegg_addition_step. cbn [row_cid row_inchi].
  destruct Hstale as [E|(c0 & E & Hc)]; rewrite E;
    [|rewrite bool_decide_eq_false_2 by congruence]; simpl negb; cbv iota;
    eexists.
  all: split; [apply lookup_insert_eq|];
    split; [reflexivity|];
    split; [unfold transform, _transform, py_slice_to, py_sum; simpl; f_equal; ring|];
    split; [reflexivity|]; simpl; apply app_nil_r.
Qed.

(** ** The compound cache *)

Lemma get_kegg_compound_step env cid st :
  let '(c, st') := get_kegg_compound env cid st in
  compound_dict st' !! kegg_id cid = Some c /\
  (forall k c0, compound_dict st !! k = Some c0 -> compound_dict st' !! k = Some c0) /\
  (cache_keys_ok (compound_dict st) -> cache_keys_ok (compound_dict st')).
Proof.
  unfold get_kegg_compound.
  destruct (compound_dict st !! kegg_id cid) as [c|] eqn:E.
  - split; [exact E|]. split; auto.
  - assert (Hid := from_kegg_id env cid).
    destruct (from_kegg env cid) as [comp evs]. cbn [fst] in Hid. cbn [compound_dict].
    rewrite Hid. split; [apply lookup_insert_eq|]. split.
    + intros k c0 Hk. rewrite lookup_insert_ne; [exact Hk|]. congruence.
    + intros Hok. apply map_Forall_insert_2; [exact Hid|exact Hok].
Qed.

Lemma get_kegg_compounds_spec env cids : forall st,
  let '(cs, st') := get_kegg_compounds env cids st in
  (forall k c0, compound_dict st !! k = Some c0 -> compound_dict st' !! k = Some c0) /\
  Forall2 (fun cid c => compound_dict st' !! kegg_id cid = Some c) cids cs /\
  (cache_keys_ok (compound_dict st) -> cache_keys_ok (compound_dict st')).
Proof.
  induction cids as [|cid rest IH]; intros st; simpl.
  - split; [auto|]. split; [constructor|auto].
  - assert (H1 := get_kegg_compound_step env cid st).
    destruct (get_kegg_compound env cid st) as [c st1].
    specialize (IH st1).
    destruct (get_kegg_compounds env rest st1) as [cs st2].
    destruct H1 as (Hc & Hkeep1 & Hok1). destruct IH as (Hkeep2 & Hall & Hok2).
    split; [auto|]. split; [constructor; auto|auto].
Qed.

Lemma load_keys_ok file st : cache_keys_ok (compound_dict (load file st)).
Proof.
  unfold load. destruct file as [ds|]; [|apply map_Forall_empty].
  assert (Gen : forall st0, cache_keys_ok (compound_dict st0) ->
                cache_keys_ok (compound_dict (fold_left load_record ds st0))).
  { induction ds as [|d ds IH]; intros st0 Hok; simpl; [exact Hok|].
    apply IH. simpl. apply map_Forall_insert_2; [reflexivity|exact Hok]. }
  apply Gen, map_Forall_empty.
Qed.

Lemma addition_step_reflects env st r :
  exists c, compound_dict (kegg_addition_step env st r) !! kegg_id (row_cid r) = Some c /\
            inchi c = row_inchi r.
Proof.
  unfold kegg_addition_step. cbv zeta.
  destruct (compound_dict st !! kegg_id (row_cid r)) as [c|] eqn:E.
  - case_bool_decide as Hd; simpl.
    + exists c. split; [exact E|]. symmetry. exact Hd.
    + eexists. split; [apply lookup_insert_eq|reflexivity].
  - eexists. split; [apply lookup_insert_eq|reflexivity].
Qed.

Lemma addition_step_keys_ok env st r :
  cache_keys_ok (compound_dict st) ->
  cache_keys_ok (compound_dict (kegg_addition_step env st r)).
Proof.
  intros Hok. unfold kegg_addition_step. cbv zeta.
  destruct (compound_dict st !! kegg_id (row_cid r)) as [c|].
  - case_bool_decide; simpl; [exact Hok|]. apply map_Forall_insert_2; [reflexivity|exact Hok].
  - simpl. apply map_Forall_insert_2; [reflexivity|exact Hok].
Qed.

Lemma additions_keys_ok env rows : forall st,
  cache_keys_ok (compound_dict st) ->
  cache_keys_ok (compound_dict (get_kegg_additions env rows st)).
Proof.
  unfold get_kegg_additions.
  induction rows as [|r rows IH]; intros st Hok; simpl; [exact Hok|].
  apply IH, addition_step_keys_ok, Hok.
Qed.

Lemma additions_last_row env st pre r post :
  Forall (fun r' => kegg_id (row_cid r') <> kegg_id (row_cid r)) post ->
  exists c, compound_dict (get_kegg_additions env (pre ++ r :: post) st)
              !! kegg_id (row_cid r) = Some c /\ inchi c = row_inchi r.
Proof.
  intros Hpost. unfold get_kegg_additions. rewrite fold_left_app. simpl.
  destruct (addition_step_reflects env (fold_left (kegg_addition_step env) pre st) r)
    as (c & Hc & Hi).
  exists c. split; [|exact Hi].
  change (fold_left (kegg_addition_step env) post ?s) with (get_kegg_additions env post s).
  rewrite additions_lookup_other by exact Hpost. exact Hc.
Qed.

Lemma additions_clean env rows : forall st,
  need_to_update_cache_file (get_kegg_additions env rows st) = false ->
  get_kegg_additions env rows st = st.
Proof.
  induction rows as [|r rows IH]; intros st Hf; [reflexivity|].
  change (get_kegg_additions env (r :: rows) st)
    with (get_kegg_additions env rows (kegg_addition_step env st r)) in *.
  destruct (addition_step_cases env st r) as [E|E].
  - rewrite E in *. apply IH, Hf.
  - rewrite (additions_flag_mono env rows _ E) in Hf. discriminate.
Qed.

(** When every row's identity is cached with the row's InChI, the loop
    changes nothing. *)
Lemma additions_noop env rows st :
  (forall r, In r rows -> exists c,
     compound_dict st !! kegg_id (row_cid r) = Some c /\ inchi c = row_inchi r) ->
  get_kegg_additions env rows st = st.
Proof.
  unfold get_kegg_additions.
  induction rows as [|r rows IH]; intros Hall; simpl; [reflexivity|].
  destruct (Hall r (or_introl eq_refl)) as (c & Hc & Hi).
  assert (Hs : kegg_addition_step env st r = st).
  { unfold kegg_addition_step. cbv zeta. rewrite Hc.
    case_bool_decide as Hd; [reflexivity|]. exfalso. apply Hd. symmetry. exact Hi. }
  rewrite Hs. apply IH. intros r' Hr'. apply Hall. right. exact Hr'.
Qed.

Lemma nodup_keys_split (rows pre post : list AdditionRow) r :
  List.NoDup (map (fun r => kegg_id (row_cid r)) rows) -> rows = pre ++ r :: post ->
  Forall (fun r' => kegg_id (row_cid r') <> kegg_id (row_cid r)) post.
Proof.
  intros Hnd ->. rewrite map_app in Hnd. simpl in Hnd.
  apply NoDup_remove_2 in Hnd.
  apply List.Forall_forall. intros r' Hr' Heq. apply Hnd.
  apply in_or_app. right. rewrite <- Heq.
  apply (in_map (fun r => kegg_id (row_cid r))), Hr'.
Qed.

Lemma additions_reflect_all env rows st :
  List.NoDup (map (fun r => kegg_id (row_cid r)) rows) ->
  forall r, In r rows -> exists c,
    compound_dict (get_kegg_additions env rows st) !! kegg_id (row_cid r) = Some c /\
    inchi c = row_inchi r.
Proof.
  intros Hnd r Hin. apply in_split in Hin. destruct Hin as (pre & post & Hrows).
  rewrite Hrows. apply additions_last_row.
  apply (nodup_keys_split rows pre post r Hnd Hrows).
Qed.

(** ** Persistence *)

Definition id_le (a b : Compound) : Prop := str_le (compound_id a) (compound_id b).

Lemma insert_by_id_perm x l : Permutation (insert_by_id x l) (x :: l).
Proof.
  induction l as [|y l IH]; simpl; [reflexivity|].
  destruct (String.leb (compound_id x) (compound_id y)); [reflexivity|].
  rewrite IH. apply perm_swap.
Qed.

Lemma sort_by_id_perm l : Permutation (sort_by_id l) l.
Proof.
  induction l as [|x l IH]; simpl; [reflexivity|].
  rewrite insert_by_id_perm, IH. reflexivity.
Qed.

Lemma insert_by_id_hd a x l :
  HdRel id_le a l -> id_le a x -> HdRel id_le a (insert_by_id x l).
Proof.
  intros Hd Hax. destruct l as [|y l]; simpl.
  - constructor. exact Hax.
  - destruct (String.leb (compound_id x) (compound_id y)); constructor; [exact Hax|].
    inversion Hd; assumption.
Qed.

Lemma insert_by_id_sorted x l : Sorted id_le l -> Sorted id_le (insert_by_id x l).
Proof.
  induction l as [|y l IH]; intros Hs; simpl.
  - repeat constructor.
  - destruct (String.leb (compound_id x) (compound_id y)) eqn:E.
    + constructor; [exact Hs|]. constructor. exact E.
    + assert (Hyx : id_le y x).
      { unfold id_le, str_le.
        destruct (String.leb_total (compound_id x) (compound_id y)) as [H|H]; congruence. }
      inversion Hs as [|? ? Hr Hd]; subst.
      constructor; [apply IH, Hr|]. apply insert_by_id_hd; assumption.
Qed.

Lemma sort_by_id_sorted l : Sorted id_le (sort_by_id l).
Proof.
  induction l as [|x l IH]; simpl; [constructor|]. apply insert_by_id_sorted, IH.
Qed.

Lemma list_fmap_map {A B} (f : A -> B) (l : list A) : f <$> l = map f l.
Proof. induction l as [|x l IH]; simpl; [reflexivity|]. rewrite <- IH. reflexivity. Qed.

Lemma fold_insert_in l c : forall m,
  List.NoDup (map compound_id l) -> In c l ->
  fold_left insert_compound l m !! compound_id c = Some c.
Proof.
  induction l as [|x l IH]; intros m Hnd Hin; simpl in *; [contradiction|].
  inversion Hnd as [|? ? Hx Hnd']; subst.
  destruct Hin as [->|Hin]; [|apply IH; assumption].
  rewrite fold_insert_other.
  - unfold insert_compound. apply lookup_insert_eq.
  - intros c' Hc' E. apply Hx. rewrite <- E. apply in_map, Hc'.
Qed.

(** Loading the records [dump] writes gives back the dictionary, when every
    entry is stored under its own id. *)
Lemma load_dump_dict m st :
  cache_keys_ok m ->
  compound_dict (load (Some (map to_json_dict (sort_by_id (map snd (map_to_list m))))) st)
  = m.
Proof.
  intros Hok. unfold load. rewrite load_fold_dict. cbn [compound_dict].
  rewrite map_map.
  assert (Hjs : forall l, map (fun c => from_json_dict (to_json_dict c)) l = l).
  { intros l. induction l as [|[] l IH]; simpl; [reflexivity|]. rewrite IH. reflexivity. }
  rewrite Hjs.
  set (data := sort_by_id (map snd (map_to_list m))).
  assert (Hperm : Permutation data (map snd (map_to_list m))) by apply sort_by_id_perm.
  assert (Hin : forall c, In c data <-> exists k, m !! k = Some c).
  { intros c. split.
    - intros H. apply (Permutation_in _ Hperm), in_map_iff in H.
      destruct H as ([k c'] & Hc & Hkc). simpl in Hc. subst c'.
      exists k. apply elem_of_map_to_list, list_elem_of_In, Hkc.
    - intros [k Hk]. apply (Permutation_in _ (Permutation_sym Hperm)).
      apply in_map_iff. exists (k, c). split; [reflexivity|].
      apply list_elem_of_In, elem_of_map_to_list, Hk. }
  assert (Hids : map compound_id (map snd (map_to_list m)) = map fst (map_to_list m)).
  { rewrite map_map. apply map_ext_in. intros [k c] Hkc. simpl.
    apply (Hok k c). apply elem_of_map_to_list, list_elem_of_In, Hkc. }
  assert (Hnd : List.NoDup (map compound_id data)).
  { apply (Permutation_NoDup (Permutation_map _ (Permutation_sym Hperm))).
    rewrite Hids, <- list_fmap_map. apply NoDup_ListNoDup, NoDup_fst_map_to_list. }
  apply map_eq. intros k. destruct (m !! k) as [c|] eqn:Ek.
  - assert (Hck : compound_id c = k) by exact (Hok k c Ek).
    rewrite <- Hck. apply fold_insert_in; [exact Hnd|]. apply Hin. exists k. exact Ek.
  - rewrite fold_insert_other; [apply lookup_empty|].
    intros c Hc E. apply Hin in Hc. destruct Hc as [k' Hk'].
    rewrite <- E, (Hok k' c Hk') in Ek. congruence.
Qed.

(** ** Properties of the cache *)

(** A lookup of an identity missing from the cache returns the compound
    [from_kegg] builds, stores it under [C%05d] of the identity, leaves
    every other entry as it was, marks the cache dirty, and makes exactly
    the external calls of [from_kegg]. *)
Theorem get_kegg_compound_miss env st cid
  (Hmiss : compound_dict st !! kegg_id cid = None) :
  let '(c, st') := get_kegg_compound env cid st in
  c = fst (from_kegg env cid) /\
  compound_dict st' !! kegg_id cid = Some c /\
  (forall k, k <> kegg_id cid -> compound_dict st' !! k = compound_dict st !! k) /\
  need_to_update_cache_file st' = true /\
  calls st' = calls st ++ snd (from_kegg env cid) /\
  compound_ids st' = compound_ids st.
Proof.
  unfold get_kegg_compound. rewrite Hmiss.
  assert (Hid := from_kegg_id env cid).
  destruct (from_kegg env cid) as [comp evs]. cbn [fst snd] in *.
  cbn [compound_dict need_to_update_cache_file calls compound_ids].
  rewrite Hid. split; [reflexivity|]. split; [apply lookup_insert_eq|].
  split; [|auto]. intros k Hk. apply lookup_insert_ne. congruence.
Qed.

(** After the cacher starts, any sequence of lookups returns for each
    identity the compound the cache then holds under [C%05d] of it, that
    compound carries this id, and entries present before the lookups are
    kept: every cache entry stays stored under its own id, whatever the
    cache file held. *)
Theorem cacher_lookups env file rows cids :
  let st := fst (init_cacher env file rows) in
  let '(cs, st') := get_kegg_compounds env cids st in
  cache_keys_ok (compound_dict st') /\
  Forall2 (fun cid c => compound_id c = kegg_id cid /\
                        compound_dict st' !! kegg_id cid = Some c) cids cs /\
  (forall k c, compound_dict st !! k = Some c -> compound_dict st' !! k = Some c).
Proof.
  cbv zeta.
  assert (Hok0 : cache_keys_ok (compound_dict (fst (init_cacher env file rows)))).
  { unfold init_cacher, dump.
    set (A := get_kegg_additions env rows (load file (mkCacheState ∅ [] false []))).
    assert (HA : cache_keys_ok (compound_dict A)) by apply additions_keys_ok, load_keys_ok.
    destruct (need_to_update_cache_file A); exact HA. }
  assert (H := get_kegg_compounds_spec env cids (fst (init_cacher env file rows))).
  destruct (get_kegg_compounds env cids _) as [cs st'].
  destruct H as (Hkeep & Hall & Hok). specialize (Hok Hok0).
  split; [exact Hok|]. split; [|exact Hkeep].
  eapply Forall2_impl; [exact Hall|]. intros cid c Hc. split; [|exact Hc].
  exact (Hok _ _ Hc).
Qed.

(** Reconciling the additions, the last row of an identity decides its
    entry: after the loop the cache holds, under [C%05d] of the row's cid,
    a compound with the row's InChI. *)
Theorem additions_last_row_wins env st pre r post
  (Hpost : Forall (fun r' => kegg_id (row_cid r') <> kegg_id (row_cid r)) post) :
  exists c, compound_dict (get_kegg_additions env (pre ++ r :: post) st)
              !! kegg_id (row_cid r) = Some c /\ inchi c = row_inchi r.
Proof. apply additions_last_row, Hpost. Qed.

(** Reconciling the additions never touches the entry of an identity that
    no row names. *)
Theorem additions_untouched env rows st k
  (Hk : Forall (fun r => kegg_id (row_cid r) <> k) rows) :
  compound_dict (get_kegg_additions env rows st) !! k = compound_dict st !! k.
Proof. apply additions_lookup_other, Hk. Qed.

(** With one row per identity, reconciling the additions a second time
    changes nothing: no pKa is predicted again, the dirty flag and the
    cache stay as the first pass left them. *)
Theorem additions_idempotent env rows st
  (Hrows : List.NoDup (map (fun r => kegg_id (row_cid r)) rows)) :
  let st1 := get_kegg_additions env rows st in
  get_kegg_additions env rows st1 = st1.
Proof.
  cbv zeta. apply additions_noop. apply additions_reflect_all, Hrows.
Qed.

(** [dump] writes only a dirty cache: it then writes every cached compound
    exactly once (a permutation of the dictionary's values), in
    non-decreasing order of id, and clears the dirty flag; the dictionary
    and the external calls are not changed. *)
Theorem dump_output st :
  let '(st', out) := dump st in
  need_to_update_cache_file st' = false /\
  compound_dict st' = compound_dict st /\ calls st' = calls st /\
  match out with
  | None => need_to_update_cache_file st = false /\ st' = st
  | Some recs => need_to_update_cache_file st = true /\
      exists data, recs = map to_json_dict data /\
        Permutation data (map snd (map_to_list (compound_dict st))) /\
        Sorted id_le data
  end.
Proof.
  unfold dump. destruct (need_to_update_cache_file st) eqn:E.
  - cbn. split; [reflexivity|]. split; [reflexivity|]. split; [reflexivity|].
    split; [reflexivity|]. eexists. split; [reflexivity|].
    split; [apply sort_by_id_perm|apply sort_by_id_sorted].
  - auto.
Qed.

(** Loading the records that [dump] writes from a dirty cache gives back
    its dictionary, provided every entry is stored under its own id. *)
Theorem dump_load_roundtrip st st0
  (Hok : cache_keys_ok (compound_dict st))
  (Hdirty : need_to_update_cache_file st = true) :
  compound_dict (load (snd (dump st)) st0) = compound_dict st.
Proof.
  unfold dump. rewrite Hdirty. cbn [snd]. apply load_dump_dict, Hok.
Qed.

(** With one additions row per identity, a second start of the cacher,
    from the cache file the first start left, writes nothing, makes no
    external call and ends with the same dictionary. *)
Theorem cacher_restart env file rows
  (Hrows : List.NoDup (map (fun r => kegg_id (row_cid r)) rows)) :
  let '(st1, out1) := init_cacher env file rows in
  let file' := match out1 with Some recs => Some recs | None => file end in
  let '(st2, out2) := init_cacher env file' rows in
  out2 = None /\ compound_dict st2 = compound_dict st1 /\ calls st2 = [].
Proof.
  unfold init_cacher.
  set (st0 := mkCacheState ∅ [] false []).
  set (A := get_kegg_additions env rows (load file st0)).
  assert (HcallsL : forall f, calls (load f st0) = []).
  { intros [ds|]; [|reflexivity]. unfold load. rewrite load_record_calls. reflexivity. }
  assert (HflagL : forall f, need_to_update_cache_file (load f st0) = false).
  { intros [ds|]; [|reflexivity]. unfold load. apply load_record_flag. }
  unfold dump at 1. fold A.
  destruct (need_to_update_cache_file A) eqn:EA.
  - cbv zeta iota.
    set (recs := map to_json_dict (sort_by_id (map snd (map_to_list (compound_dict A))))).
    assert (HokA : cache_keys_ok (compound_dict A))
      by apply additions_keys_ok, load_keys_ok.
    assert (Hdict : compound_dict (load (Some recs) st0) = compound_dict A)
      by apply load_dump_dict, HokA.
    assert (Hnoop : get_kegg_additions env rows (load (Some recs) st0) = load (Some recs) st0).
    { apply additions_noop. intros r Hr. rewrite Hdict.
      apply additions_reflect_all; assumption. }
    rewrite Hnoop. unfold dump. rewrite HflagL.
    split; [reflexivity|]. split; [exact Hdict|]. apply HcallsL.
  - cbv zeta iota. fold st0. fold A. unfold dump. rewrite EA.
    split; [reflexivity|]. split; [reflexivity|].
    unfold A. rewrite additions_clean by exact EA. apply HcallsL.
Qed.

(** ** The formula parser *)

Lemma append_cons a s t : String.append (String a s) t = String a (String.append s t).
Proof. reflexivity. Qed.

Lemma append_nil t : String.append EmptyString t = t.
Proof. reflexivity. Qed.

Lemma str_append_empty s : String.append s EmptyString = s.
Proof.
  induction s as [|a s IH]; [reflexivity|]. rewrite append_cons, IH. reflexivity.
Qed.

Lemma split_on_cons sep s : exists h t, split_on sep s = h :: t.
Proof.
  induction s as [|a s (h & t & IH)]; simpl; [eauto|].
  rewrite IH. destruct (Ascii.eqb a sep); eauto.
Qed.

Lemma split_on_app sep s1 t :
  str_forall (fun a => negb (Ascii.eqb a sep)) s1 = true ->
  forall h rest, split_on sep t = h :: rest ->
  split_on sep (String.append s1 t) = String.append s1 h :: rest.
Proof.
  intros Hs h rest Ht. induction s1 as [|a s1 IH]; [exact Ht|].
  rewrite !append_cons. simpl in Hs |- *. apply andb_true_iff in Hs. destruct Hs as [Ha Hs].
  rewrite IH by exact Hs. apply negb_true_iff in Ha. rewrite Ha. reflexivity.
Qed.

(** The count an atom gets from the matches of one formula part. *)
Definition atoms_count (a : string) (ms : list (string * string)) : Z :=
  fold_right (fun '(atom, count) acc =>
                ((if String.eqb atom a then
                    if String.eqb count EmptyString then 1 else digits_value count
                  else 0) + acc)%Z) 0%Z ms.

Lemma add_atoms_cons t m atom count ms :
  add_atoms t m ((atom, count) :: ms)
  = add_atoms t (<[atom := (default 0%Z (m !! atom)
                            + (if String.eqb count EmptyString then 1%Z
                               else digits_value count) * t)%Z]> m) ms.
Proof. reflexivity. Qed.

Lemma add_atoms_count t a ms : forall m,
  default 0%Z (add_atoms t m ms !! a) = (default 0%Z (m !! a) + t * atoms_count a ms)%Z.
Proof.
  induction ms as [|[atom count] ms IH]; intros m; [simpl; lia|].
  rewrite add_atoms_cons, IH. simpl atoms_count.
  destruct (String.eqb_spec atom a) as [->|Hne].
  - rewrite lookup_insert_eq. simpl. lia.
  - rewrite lookup_insert_ne by congruence. lia.
Qed.

Lemma add_atoms_key t a ms : forall m,
  is_Some (add_atoms t m ms !! a) <-> is_Some (m !! a) \/ In a (map fst ms).
Proof.
  induction ms as [|[atom count] ms IH]; intros m; [simpl; tauto|].
  rewrite add_atoms_cons, IH. simpl map.
  destruct (String.eqb_spec atom a) as [->|Hne].
  - rewrite lookup_insert_eq. split; intros _; [right; left; reflexivity|left; eauto].
  - rewrite lookup_insert_ne by congruence. simpl. intuition congruence.
Qed.

Definition part_times (times : option string) : Z :=
  match times with
  | None => 1%Z
  | Some d => if String.eqb d EmptyString then 1%Z else digits_value d
  end.

Definition part_count (a : string) (p : string) : Z :=
  match head_match p with
  | None => 0%Z
  | Some (times, mol_formula) =>
    (part_times times * atoms_count a (findall_atoms mol_formula))%Z
  end.

Definition part_keys (p : string) : list string :=
  match head_match p with
  | None => []
  | Some (_, mol_formula) => map fst (findall_atoms mol_formula)
  end.

Lemma add_formula_part_count m p a :
  default 0%Z (add_formula_part m p !! a) = (default 0%Z (m !! a) + part_count a p)%Z.
Proof.
  unfold add_formula_part, part_count.
  destruct (head_match p) as [[times mf]|]; [|lia].
  apply add_atoms_count.
Qed.

Lemma add_formula_part_key m p a :
  is_Some (add_formula_part m p !! a) <-> is_Some (m !! a) \/ In a (part_keys p).
Proof.
  unfold add_formula_part, part_keys.
  destruct (head_match p) as [[times mf]|]; [|simpl; tauto].
  apply add_atoms_key.
Qed.

Lemma fold_parts_count ps a : forall m,
  default 0%Z (fold_left add_formula_part ps m !! a)
  = (default 0%Z (m !! a) + fold_right (fun p acc => part_count a p + acc) 0 ps)%Z.
Proof.
  induction ps as [|p ps IH]; intros m; simpl; [lia|].
  rewrite IH, add_formula_part_count. lia.
Qed.

Lemma fold_parts_key ps a : forall m,
  is_Some (fold_left add_formula_part ps m !! a)
  <-> is_Some (m !! a) \/ exists p, In p ps /\ In a (part_keys p).
Proof.
  induction ps as [|p ps IH]; intros m; simpl.
  - split; [auto|]. intros [H|(p & [] & _)]. exact H.
  - rewrite IH, add_formula_part_key. split.
    + intros [[H|H]|(p' & Hp' & Ha)]; eauto.
    + intros [H|(p' & [->|Hp'] & Ha)]; eauto.
Qed.

Lemma split_no_dot s :
  str_forall (fun a => negb (Ascii.eqb a (Ascii.ascii_of_nat 46))) s = true ->
  split_on (Ascii.ascii_of_nat 46) s = [s].
Proof.
  intros Hs.
  transitivity (split_on (Ascii.ascii_of_nat 46) (String.append s EmptyString));
    [rewrite str_append_empty; reflexivity|].
  rewrite (split_on_app _ s EmptyString Hs EmptyString [] eq_refl).
  rewrite str_append_empty. reflexivity.
Qed.

Lemma take_while_all p s : str_forall p s = true -> take_while p s = s.
Proof.
  induction s as [|a s IH]; simpl; [reflexivity|].
  intros H. apply andb_true_iff in H. destruct H as [-> H]. rewrite IH by exact H.
  reflexivity.
Qed.

Lemma take_while_forall p s : str_forall p (take_while p s) = true.
Proof.
  induction s as [|a s IH]; simpl; [reflexivity|].
  destruct (p a) eqn:E; simpl; [rewrite E, IH; reflexivity|reflexivity].
Qed.

Lemma take_while_app_stop p s b r :
  str_forall p s = true -> p b = false ->
  take_while p (String.append s (String b r)) = s.
Proof.
  intros Hs Hb. induction s as [|a s IH]; [simpl; rewrite Hb; reflexivity|].
  rewrite append_cons. simpl in Hs |- *. apply andb_true_iff in Hs. destruct Hs as [-> Hs]. rewrite IH by exact Hs.
  reflexivity.
Qed.

Lemma str_drop_app s t : str_drop (String.length s) (String.append s t) = t.
Proof.
  induction s as [|a s IH]; [destruct t; reflexivity|]. rewrite append_cons. exact IH.
Qed.

Lemma str_take_app s t : str_take (String.length s) (String.append s t) = s.
Proof.
  induction s as [|a s IH]; [destruct t; reflexivity|].
  rewrite append_cons. simpl. rewrite IH. reflexivity.
Qed.

Lemma str_forall_app p s t :
  str_forall p (String.append s t) = (str_forall p s && str_forall p t)%bool.
Proof.
  induction s as [|a s IH]; [reflexivity|].
  rewrite append_cons. simpl. rewrite IH. apply andb_assoc.
Qed.

Lemma digit_word a : is_digit a = true -> is_word a = true.
Proof. unfold is_word. intros ->. reflexivity. Qed.

Lemma digits_words s : str_forall is_digit s = true -> str_forall is_word s = true.
Proof.
  induction s as [|a s IH]; simpl; [reflexivity|].
  intros H. apply andb_true_iff in H. destruct H as [Ha H].
  rewrite digit_word, IH; auto.
Qed.

Lemma word_no_dot s : str_forall is_word s = true ->
  str_forall (fun a => negb (Ascii.eqb a (Ascii.ascii_of_nat 46))) s = true.
Proof.
  induction s as [|a s IH]; simpl; [reflexivity|].
  intros H. apply andb_true_iff in H. destruct H as [Ha H].
  rewrite IH by exact H. rewrite andb_true_r.
  destruct (Ascii.eqb_spec a (Ascii.ascii_of_nat 46)) as [->|]; [discriminate|reflexivity].
Qed.

Lemma head_try_S s k :
  head_try s (S k)
  = let w := take_while is_word (str_drop (S k) s) in
    if String.eqb w EmptyString then head_try s k
    else Some (Some (str_take (S k) s), w).
Proof. reflexivity. Qed.

(** The head pattern on a word that does not start with a digit: no
    multiplier, the whole word. *)
Lemma head_match_word b r :
  is_digit b = false -> str_forall is_word (String b r) = true ->
  head_match (String b r) = Some (None, String b r).
Proof.
  intros Hb Hw. unfold head_match.
  assert (Ht : take_while is_digit (String b r) = EmptyString)
    by (simpl; rewrite Hb; reflexivity).
  rewrite Ht. simpl String.length. simpl head_try.
  simpl in Hw. apply andb_true_iff in Hw. destruct Hw as [-> Hw].
  rewrite (take_while_all _ _ Hw). reflexivity.
Qed.

(** The head pattern on digits followed by such a word: the digits are the
    multiplier. *)
Lemma head_match_times d b r :
  d <> EmptyString -> str_forall is_digit d = true ->
  is_digit b = false -> str_forall is_word (String b r) = true ->
  head_match (String.append d (String b r))
  = Some (Some d, String b r).
Proof.
  intros Hd Hdig Hb Hw. unfold head_match.
  rewrite (take_while_app_stop _ _ _ _ Hdig Hb).
  destruct d as [|a d']; [congruence|].
  change (String.length (String a d')) with (S (String.length d')).
  rewrite head_try_S. cbv zeta.
  change (S (String.length d')) with (String.length (String a d')).
  rewrite str_drop_app, str_take_app, (take_while_all _ _ Hw). reflexivity.
Qed.

Lemma str_take_forall p s : forall k,
  (k <= String.length (take_while p s))%nat -> str_forall p (str_take k s) = true.
Proof.
  induction s as [|a s IH]; intros k Hk; destruct k as [|k]; simpl in *; auto.
  destruct (p a) eqn:E; simpl in Hk; [|lia].
  simpl. apply IH. lia.
Qed.

Lemma head_try_times_digits s k : forall d w,
  (k <= String.length (take_while is_digit s))%nat ->
  head_try s k = Some (Some d, w) -> str_forall is_digit d = true.
Proof.
  induction k as [|k IH]; intros d w Hk H.
  - simpl in H. destruct (String.eqb _ EmptyString); discriminate.
  - rewrite head_try_S in H. cbv zeta in H.
    destruct (String.eqb _ EmptyString).
    + apply (IH d w); [lia|exact H].
    + injection H as <- _. exact (str_take_forall _ s (S k) Hk).
Qed.

Lemma digits_value_acc_nonneg s : forall acc,
  (0 <= acc)%Z -> str_forall is_digit s = true -> (0 <= digits_value_acc acc s)%Z.
Proof.
  induction s as [|a s IH]; intros acc Hacc Hs; simpl in *; [exact Hacc|].
  apply andb_true_iff in Hs. destruct Hs as [Ha Hs].
  unfold is_digit in Ha. apply andb_true_iff in Ha. destruct Ha as [Ha _].
  apply Nat.leb_le in Ha. apply IH; [lia|exact Hs].
Qed.

Lemma head_match_times_nonneg s times mf :
  head_match s = Some (times, mf) -> (0 <= part_times times)%Z.
Proof.
  intros H. destruct times as [d|]; simpl; [|lia].
  destruct (String.eqb d EmptyString); [lia|].
  apply digits_value_acc_nonneg; [lia|].
  exact (head_try_times_digits s _ d mf (le_n _) H).
Qed.

Definition atom_ok (a : string) (n : Z) : Prop := is_symbol a = true /\ (0 <= n)%Z.

Lemma findall_atoms_go_ok fuel : forall s,
  Forall (fun '(atom, count) => is_symbol atom = true /\ str_forall is_digit count = true)
         (findall_atoms_go fuel s).
Proof.
  induction fuel as [|f IH]; intros s; simpl; [constructor|].
  destruct s as [|a r]; [constructor|].
  destruct (is_upper a) eqn:Ea; [|apply IH].
  constructor; [|apply IH]. split.
  - simpl. rewrite Ea. apply take_while_forall.
  - apply take_while_forall.
Qed.

Lemma add_atoms_ok t ms : forall m,
  (0 <= t)%Z ->
  Forall (fun '(atom, count) => is_symbol atom = true /\ str_forall is_digit count = true) ms ->
  map_Forall atom_ok m -> map_Forall atom_ok (add_atoms t m ms).
Proof.
  induction ms as [|[atom count] ms IH]; intros m Ht Hms Hm; [exact Hm|].
  rewrite add_atoms_cons. inversion Hms as [|? ? Hhd Hrest]; subst.
  simpl in Hhd. destruct Hhd as [Hsym Hcount].
  apply IH; [exact Ht|exact Hrest|].
  apply map_Forall_insert_2; [|exact Hm]. split; [exact Hsym|].
  assert (H0 : (0 <= default 0%Z (m !! atom))%Z).
  { destruct (m !! atom) as [n|] eqn:E; simpl; [|lia]. exact (proj2 (Hm atom n E)). }
  assert (Hn : (0 <= (if String.eqb count EmptyString then 1 else digits_value count))%Z).
  { destruct (String.eqb count EmptyString); [lia|].
    apply digits_value_acc_nonneg; [lia|exact Hcount]. }
  nia.
Qed.

Lemma add_formula_part_ok m p :
  map_Forall atom_ok m -> map_Forall atom_ok (add_formula_part m p).
Proof.
  intros Hm. unfold add_formula_part.
  destruct (head_match p) as [[times mf]|] eqn:E; [|exact Hm].
  apply add_atoms_ok; [|apply findall_atoms_go_ok|exact Hm].
  exact (head_match_times_nonneg p times mf E).
Qed.

(** ** Properties of the formula parser *)

(** The atom bag of a formula [f1.f2] (the InChI notation for a mixture of
    molecules) adds, element by element, the bags of [f1] and of [f2]; an
    element is a key of the bag exactly when it is a key of one of them. *)
Theorem atom_bag_dot_additive s1 s2 a
  (Hs1 : str_forall (fun c => negb (Ascii.eqb c (Ascii.ascii_of_nat 46))) s1 = true) :
  default 0%Z (atom_bag_of_formula (String.append s1 (String.append "." s2)) !! a)
  = (default 0%Z (atom_bag_of_formula s1 !! a) + default 0%Z (atom_bag_of_formula s2 !! a))%Z /\
  (is_Some (atom_bag_of_formula (String.append s1 (String.append "." s2)) !! a) <->
   is_Some (atom_bag_of_formula s1 !! a) \/ is_Some (atom_bag_of_formula s2 !! a)).
Proof.
  unfold atom_bag_of_formula.
  change (String.append "." s2) with (String (Ascii.ascii_of_nat 46) s2).
  assert (Hsplit : split_on (Ascii.ascii_of_nat 46) (String.append s1 (String (Ascii.ascii_of_nat 46) s2))
                   = s1 :: split_on (Ascii.ascii_of_nat 46) s2).
  { rewrite (split_on_app _ s1 _ Hs1 EmptyString (split_on (Ascii.ascii_of_nat 46) s2)).
    - rewrite str_append_empty. reflexivity.
    - simpl. rewrite ?Ascii.eqb_refl. reflexivity. }
  rewrite Hsplit, (split_no_dot s1 Hs1).
  set (ps := split_on (Ascii.ascii_of_nat 46) s2).
  split.
  - simpl fold_left. rewrite !fold_parts_count, add_formula_part_count.
    simpl. rewrite !lookup_empty. simpl. lia.
  - simpl fold_left. rewrite !fold_parts_key, add_formula_part_key. simpl.
    rewrite !lookup_empty.
    assert (Hn : ~ is_Some (@None Z)) by (intros [? ?]; discriminate).
    firstorder.
Qed.

(** A leading multiplier multiplies the whole part: for a string of digits
    [d] followed by a word [w] that does not start with a digit, the bag of
    [d ++ w] counts [int(d)] times each atom of [w], and has the keys of
    [w]. *)
Theorem atom_bag_multiplier d b r a
  (Hd : d <> EmptyString) (Hdig : str_forall is_digit d = true)
  (Hb : is_digit b = false) (Hw : str_forall is_word (String b r) = true) :
  default 0%Z (atom_bag_of_formula (String.append d (String b r)) !! a)
  = (digits_value d * default 0%Z (atom_bag_of_formula (String b r) !! a))%Z /\
  (is_Some (atom_bag_of_formula (String.append d (String b r)) !! a) <->
   is_Some (atom_bag_of_formula (String b r) !! a)).
Proof.
  unfold atom_bag_of_formula.
  assert (Hw' : str_forall is_word (String.append d (String b r)) = true)
    by (rewrite str_forall_app, digits_words, Hw; auto).
  rewrite (split_no_dot _ (word_no_dot _ Hw')), (split_no_dot _ (word_no_dot _ Hw)).
  simpl fold_left. unfold add_formula_part.
  rewrite (head_match_times d b r Hd Hdig Hb Hw), (head_match_word b r Hb Hw).
  assert (Ht : String.eqb d EmptyString = false)
    by (destruct (String.eqb_spec d EmptyString); [congruence|reflexivity]).
  rewrite Ht. split.
  - rewrite !add_atoms_count, lookup_empty. simpl. lia.
  - rewrite !add_atoms_key. reflexivity.
Qed.

(** Whatever formula ChemAxon returns, every key of the atom bag is an
    element symbol (an upper-case letter followed by lower-case letters)
    and every count is non-negative; the charge is ChemAxon's. *)
Theorem atom_bag_well_formed GetFormulaAndCharge inchi :
  map_Forall (fun a n => is_symbol a = true /\ (0 <= n)%Z)
    (fst (get_atom_bag_and_charge_from_inchi_impl GetFormulaAndCharge inchi)) /\
  snd (get_atom_bag_and_charge_from_inchi_impl GetFormulaAndCharge inchi)
  = snd (GetFormulaAndCharge inchi).
Proof.
  unfold get_atom_bag_and_charge_from_inchi_impl.
  destruct (GetFormulaAndCharge inchi) as [formula charge]. simpl.
  split; [|reflexivity].
  unfold atom_bag_of_formula.
  assert (G : forall ps m, map_Forall atom_ok m ->
                map_Forall atom_ok (fold_left add_formula_part ps m)).
  { induction ps as [|p ps IH]; intros m Hm; simpl; [exact Hm|].
    apply IH, add_formula_part_ok, Hm. }
  apply G, map_Forall_empty.
Qed.

(** ** Instances of the further properties *)

Definition row1 : AdditionRow := mkAdditionRow 1 (Some "A"%string).
Definition row80 : AdditionRow := mkAdditionRow 80 (Some "P"%string).

Lemma transform_single_species_witness :
  transform env1 c_single 7 (1/10) 298
  = Ok (2 * (831 / 100000 * 298 * ln 10 * 7) + 1 / 2).
Proof.
  rewrite (transform_single_species env1 c_single "A" 2 (-1) 7 (1/10) 298)
    by (reflexivity || (cbn [Rgas env1]; lra)).
  f_equal. cbn [Rgas debye_huckel env1]. ring.
Defined.

Lemma proton_transform_zero_witness :
  transform env0 (fst (from_kegg env0 80)) 7 (1/10) 298 = Ok 0.
Proof.
  apply (proton_transform_zero env0 7 (1/10) 298). simpl. intros H. lra.
Defined.

Lemma transform_shape_error_witness :
  _transform env0 c_acid 7 0 298 = Err ShapeMismatch <-> ~ ladder_shape c_acid.
Proof. apply (transform_shape_error env0 c_acid "A" 7 0 298). reflexivity. Defined.

Lemma transform_soft_min_witness :
  exists v, _transform env0 c_acid 7 0 298 = Ok v /\
    (forall i, (i <= length (pKas c_acid))%nat -> v <= V_ref env0 c_acid 7 0 298 i) /\
    (exists i, (i <= length (pKas c_acid))%nat /\
       V_ref env0 c_acid 7 0 298 i
       - Rgas env0 * 298 * ln (INR (S (length (pKas c_acid)))) <= v).
Proof.
  apply (transform_soft_min env0 c_acid "A" 7 0 298).
  - split; reflexivity.
  - reflexivity.
  - simpl. lra.
Defined.

Lemma get_species_pka_fallback_witness :
  get_species_pka env0 (Some "P"%string) MT_inchi
  = mkLadder [] 0%Z
      [default 0%Z (fst (get_atom_bag_and_charge_from_inchi env0 (Some "P"%string))
                      !! "H"%string)]
      [snd (get_atom_bag_and_charge_from_inchi env0 (Some "P"%string))].
Proof. apply (get_species_pka_fallback env0 "P" MT_inchi). reflexivity. Defined.

Lemma additions_missing_inchi_witness :
  exists c, compound_dict (get_kegg_additions env0 [mkAdditionRow 5 None] st_empty)
              !! kegg_id 5 = Some c /\
    c = mkCompound "KEGG" (kegg_id 5) None [] (-1)%Z [] [] /\
    transform env0 c 7 0 298 = Ok 0 /\
    transform_neutral env0 c 7 0 298 = Err (NoZeroChargeSpecies (kegg_id 5)) /\
    calls (get_kegg_additions env0 [mkAdditionRow 5 None] st_empty) = calls st_empty.
Proof.
  apply (additions_missing_inchi env0 st_empty 5 7 0 298). left. reflexivity.
Defined.

Lemma get_kegg_compound_miss_witness :
  let '(c, st') := get_kegg_compound env0 1 st_empty in
  c = fst (from_kegg env0 1) /\
  compound_dict st' !! kegg_id 1 = Some c /\
  (forall k, k <> kegg_id 1 -> compound_dict st' !! k = compound_dict st_empty !! k) /\
  need_to_update_cache_file st' = true /\
  calls st' = calls st_empty ++ snd (from_kegg env0 1) /\
  compound_ids st' = compound_ids st_empty.
Proof. apply (get_kegg_compound_miss env0 st_empty 1). reflexivity. Defined.

Lemma additions_last_row_wins_witness :
  exists c, compound_dict (get_kegg_additions env0 ([] ++ row1 :: [row80]) st_empty)
              !! kegg_id (row_cid row1) = Some c /\ inchi c = row_inchi row1.
Proof.
  apply (additions_last_row_wins env0 st_empty [] row1 [row80]).
  constructor; [vm_compute; discriminate|constructor].
Defined.

Lemma additions_untouched_witness :
  compound_dict (get_kegg_additions env0 [row1] st_empty) !! "C00080"%string
  = compound_dict st_empty !! "C00080"%string.
Proof.
  apply (additions_untouched env0 [row1] st_empty "C00080").
  constructor; [vm_compute; discriminate|constructor].
Defined.

Lemma additions_idempotent_witness :
  get_kegg_additions env0 [row1; row80] (get_kegg_additions env0 [row1; row80] st_empty)
  = get_kegg_additions env0 [row1; row80] st_empty.
Proof.
  apply (additions_idempotent env0 [row1; row80] st_empty).
  apply NoDup_ListNoDup, (bool_decide_unpack _). vm_compute. reflexivity.
Defined.

Lemma dump_load_roundtrip_witness :
  compound_dict (load (snd (dump (mkCacheState {["C00001"%string := c_acid]} [] true [])))
                      st_empty)
  = compound_dict (mkCacheState {["C00001"%string := c_acid]} [] true []).
Proof.
  apply (dump_load_roundtrip (mkCacheState {["C00001"%string := c_acid]} [] true []) st_empty).
  - apply (bool_decide_unpack _). vm_compute. reflexivity.
  - reflexivity.
Defined.

Lemma cacher_restart_witness :
  let '(st1, out1) := init_cacher env0 None [row1; row80] in
  let file' := match out1 with Some recs => Some recs | None => None end in
  let '(st2, out2) := init_cacher env0 file' [row1; row80] in
  out2 = None /\ compound_dict st2 = compound_dict st1 /\ calls st2 = [].
Proof.
  apply (cacher_restart env0 None [row1; row80]).
  apply NoDup_ListNoDup, (bool_decide_unpack _). vm_compute. reflexivity.
Defined.

Lemma atom_bag_dot_additive_witness :
  default 0%Z (atom_bag_of_formula (String.append "H2O" (String.append "." "2H")) !! "H"%string)
  = (default 0%Z (atom_bag_of_formula "H2O" !! "H"%string)
     + default 0%Z (atom_bag_of_formula "2H" !! "H"%string))%Z /\
  (is_Some (atom_bag_of_formula (String.append "H2O" (String.append "." "2H")) !! "H"%string) <->
   is_Some (atom_bag_of_formula "H2O" !! "H"%string) \/
   is_Some (atom_bag_of_formula "2H" !! "H"%string)).
Proof.
  apply (atom_bag_dot_additive "H2O" "2H" "H"). vm_compute. reflexivity.
Defined.

Lemma atom_bag_multiplier_witness :
  default 0%Z (atom_bag_of_formula (String.append "2" "H2O"%string) !! "H"%string)
  = (digits_value "2" * default 0%Z (atom_bag_of_formula "H2O"%string !! "H"%string))%Z /\
  (is_Some (atom_bag_of_formula (String.append "2" "H2O"%string) !! "H"%string) <->
   is_Some (atom_bag_of_formula "H2O"%string !! "H"%string)).
Proof.
  apply (atom_bag_multiplier "2" _ _ "H").
  - discriminate.
  - vm_compute. reflexivity.
  - vm_compute. reflexivity.
  - vm_compute. reflexivity.
Defined.
